(** * A shallow embedding of the [fsm] package (machine.go, event.go,
      transition.go) and the properties of its transition engine.

    Scope of the model.

    - Go strings are byte strings; they are Rocq [string]s.
    - The two mutexes of [Machine] are not modelled: every operation is taken
      as one atomic step of a sequential caller.
    - A [Callback] is user code that receives the pointer [e *Event]. It is
      modelled by what it does to the object behind that pointer: a function
      from the context before the call to the context after it. The
      [Machine] back-pointer of the context is left out: callbacks that call
      back into the machine, or that keep state of their own, are outside the
      model.
    - Go iterates a map in an order chosen by the runtime. Every operation
      that ranges over a map takes that order as an argument.
    - The field [calls] of [Machine] is ghost state: it records, in order,
      every callback invocation the engine makes. *)

From Stdlib Require Import Ascii String.
From stdpp Require Import gmap strings list fin_maps.

Set Warnings "-register-all".

Open Scope string_scope.

(** ** Errors *)

(** Modelled from the spec: the error types of the package (its errors.go is
    not among the sources). One constructor per entry of the error taxonomy,
    with the fields the engine fills in; [UserError] stands for any error
    value of another package. A Go [error] that may be nil is an
    [option error]. *)
Inductive error : Type :=
| UserError (msg : string)
| InTransitionError (Event : string)
| InvalidEventError (Event State : string)
| UnknownEventError (Event : string)
| NotInTransitionError
| CanceledError (Err : option error)
| NoTransitionError (Err : option error)
| AsyncError (Err : option error)
| InternalError.

(** ** event.go *)

Record Event : Type := mkEvent {
  Event_Event : string;
  Event_Src : string;
  Event_Dst : string;
  Event_Err : option error;
  Event_Args : list string;
  Event_canceled : bool;
  Event_async : bool
}.

(** [func (e *Event) Cancel(err ...error)] *)
Definition Event_Cancel (err : list error) (e : Event) : Event :=
  let e := mkEvent (Event_Event e) (Event_Src e) (Event_Dst e) (Event_Err e)
                   (Event_Args e) true (Event_async e) in
  match err with
  | err0 :: _ =>
      mkEvent (Event_Event e) (Event_Src e) (Event_Dst e) (Some err0)
              (Event_Args e) (Event_canceled e) (Event_async e)
  | [] => e
  end.

(** [func (e *Event) Async()] *)
Definition Event_Async (e : Event) : Event :=
  mkEvent (Event_Event e) (Event_Src e) (Event_Dst e) (Event_Err e)
          (Event_Args e) (Event_canceled e) true.

Record eKey : Type := mk_eKey { eKey_event : string; eKey_src : string }.

#[global] Instance eKey_eq_dec : EqDecision eKey.
Proof. solve_decision. Defined.

#[global] Instance eKey_countable : Countable eKey.
Proof.
  refine (inj_countable' (fun k => (eKey_event k, eKey_src k))
                         (fun p => mk_eKey p.1 p.2) _).
  by intros [].
Defined.

(** ** machine.go: types *)

Inductive callbackType : Type :=
| callbackNone
| callbackBeforeEvent
| callbackLeaveState
| callbackEnterState
| callbackAfterEvent.

#[global] Instance callbackType_eq_dec : EqDecision callbackType.
Proof. solve_decision. Defined.

(** The constants are [iota] values 0 to 4. *)
Definition callbackType_to_nat (t : callbackType) : nat :=
  match t with
  | callbackNone => 0
  | callbackBeforeEvent => 1
  | callbackLeaveState => 2
  | callbackEnterState => 3
  | callbackAfterEvent => 4
  end.

Definition callbackType_of_nat (n : nat) : callbackType :=
  match n with
  | 0 => callbackNone
  | 1 => callbackBeforeEvent
  | 2 => callbackLeaveState
  | 3 => callbackEnterState
  | _ => callbackAfterEvent
  end.

#[global] Instance callbackType_countable : Countable callbackType.
Proof.
  refine (inj_countable' callbackType_to_nat callbackType_of_nat _).
  by intros [].
Defined.

Record cKey : Type := mk_cKey { cKey_target : string; cKey_callbackType : callbackType }.

#[global] Instance cKey_eq_dec : EqDecision cKey.
Proof. solve_decision. Defined.

#[global] Instance cKey_countable : Countable cKey.
Proof.
  refine (inj_countable' (fun k => (cKey_target k, cKey_callbackType k))
                         (fun p => mk_cKey p.1 p.2) _).
  by intros [].
Defined.

Record EventDesc : Type := mkEventDesc {
  EventDesc_Name : string;
  EventDesc_Src : list string;
  EventDesc_Dst : string
}.

(** [type Callback func(event *Event)] *)
Abbreviation Callback := (Event -> Event).

(** The closure stored in [m.transition]. The source has one closure only
    (machine.go, lines 183 to 190); it captures [dst] and the pointer [e]. *)
Record Pending : Type := mkPending { Pending_dst : string; Pending_e : Event }.

(** One callback invocation: the key it was found under and the context as
    the callback left it. *)
Record Call : Type := mkCall { Call_key : cKey; Call_after : Event }.

Record Machine : Type := mkMachine {
  current : string;
  transitions : gmap eKey string;
  callbacks : gmap cKey Callback;
  transition : option Pending;
  calls : list Call
}.

Definition set_current (s : string) (m : Machine) : Machine :=
  mkMachine s (transitions m) (callbacks m) (transition m) (calls m).

Definition set_transition (t : option Pending) (m : Machine) : Machine :=
  mkMachine (current m) (transitions m) (callbacks m) t (calls m).

Definition set_calls (l : list Call) (m : Machine) : Machine :=
  mkMachine (current m) (transitions m) (callbacks m) (transition m) l.

(** ** The Go library functions [strings.HasPrefix] and [strings.Trim] *)

Definition HasPrefix (s pre : string) : bool := String.prefix pre s.

Definition inCutset (cutset : string) (c : ascii) : bool :=
  existsb (Ascii.eqb c) (list_ascii_of_string cutset).

Fixpoint trimLeft (cutset : string) (s : list ascii) : list ascii :=
  match s with
  | [] => []
  | c :: s' => if inCutset cutset c then trimLeft cutset s' else s
  end.

Definition trimRight (cutset : string) (s : list ascii) : list ascii :=
  rev (trimLeft cutset (rev s)).

(** [strings.Trim(s, cutset)]: [s] without the leading and trailing
    characters that occur in [cutset]. The cutsets of this package are
    ASCII, for which Go trims byte by byte. *)
Definition Trim (s cutset : string) : string :=
  string_of_list_ascii
    (trimLeft cutset (trimRight cutset (list_ascii_of_string s))).

(** ** machine.go: [NewMachine] *)

(** The tables built by the first loop of [NewMachine] (lines 37 to 46):
    [m.transitions], [allEvents] and [allStatus]. The two [map[string]bool]
    are only ever tested for membership; they are sets here. *)
Record Tables : Type := mkTables {
  Tables_transitions : gmap eKey string;
  allEvents : gset string;
  allStatus : gset string
}.

Definition addSrc (e : EventDesc) (t : Tables) (src : string) : Tables :=
  mkTables (<[mk_eKey (EventDesc_Name e) src := EventDesc_Dst e]> (Tables_transitions t))
           (allEvents t)
           ({[EventDesc_Dst e]} ∪ ({[src]} ∪ allStatus t)).

Definition addEvent (t : Tables) (e : EventDesc) : Tables :=
  let t := foldl (addSrc e) t (EventDesc_Src e) in
  mkTables (Tables_transitions t) ({[EventDesc_Name e]} ∪ allEvents t) (allStatus t).

Definition buildTables (events : list EventDesc) : Tables :=
  foldl addEvent (mkTables ∅ ∅ ∅) events.

(** The [switch] of lines 51 to 89: the key a callback name resolves to;
    [callbackNone] when nothing matched. *)
Definition resolve (t : Tables) (name : string) : cKey :=
  if HasPrefix name "before_" then
    let target := Trim name "before_" in
    if String.eqb target "event" then mk_cKey target callbackBeforeEvent
    else if bool_decide (target ∈ allEvents t) then mk_cKey target callbackBeforeEvent
    else mk_cKey target callbackNone
  else if HasPrefix name "leave_" then
    let target := Trim name "leave_" in
    if String.eqb target "state" then mk_cKey target callbackLeaveState
    else if bool_decide (target ∈ allStatus t) then mk_cKey target callbackLeaveState
    else mk_cKey target callbackNone
  else if HasPrefix name "enter_" then
    let target := Trim name "enter_" in
    if String.eqb target "state" then mk_cKey target callbackEnterState
    else if bool_decide (target ∈ allStatus t) then mk_cKey target callbackEnterState
    else mk_cKey target callbackNone
  else if HasPrefix name "after_" then
    let target := Trim name "after_" in
    if String.eqb target "event" then mk_cKey target callbackAfterEvent
    else if bool_decide (target ∈ allEvents t) then mk_cKey target callbackAfterEvent
    else mk_cKey target callbackNone
  else
    let target := name in
    if bool_decide (target ∈ allStatus t) then mk_cKey target callbackEnterState
    else if bool_decide (target ∈ allEvents t) then mk_cKey target callbackAfterEvent
    else mk_cKey target callbackNone.

(** Lines 90 to 92. *)
Definition register (t : Tables) (cbs : gmap cKey Callback)
    (entry : string * Callback) : gmap cKey Callback :=
  let k := resolve t entry.1 in
  if bool_decide (cKey_callbackType k ≠ callbackNone) then <[k := entry.2]> cbs else cbs.

(** [callbacks] is the Go map [Callbacks], listed in the order the [range]
    of line 50 visits it. *)
Definition NewMachine (initialState : string) (events : list EventDesc)
    (callbacks : list (string * Callback)) : Machine :=
  let t := buildTables events in
  mkMachine initialState (Tables_transitions t) (foldl (register t) ∅ callbacks) None [].

(** ** A state monad over the machine *)

Definition M (A : Type) : Type := Machine -> A * Machine.

Definition ret {A} (a : A) : M A := fun m => (a, m).

Definition bind {A B} (c : M A) (k : A -> M B) : M B :=
  fun m => let (a, m') := c m in k a m'.

Definition get : M Machine := fun m => (m, m).

Definition modify (f : Machine -> Machine) : M unit := fun m => (tt, f m).

Notation "'let*' x := c 'in' k" := (bind c (fun x => k))
  (at level 10, x name, c at level 100, k at level 200, only parsing).

(** ** machine.go: the methods *)

(** [x == nil] *)
Definition isNil {A} (x : option A) : bool :=
  match x with
  | None => true
  | Some _ => false
  end.

Definition Machine_Current : M string := let* m := get in ret (current m).

Definition Machine_Is (state : string) : M bool :=
  let* c := Machine_Current in ret (String.eqb state c).

Definition Machine_SetState (state : string) : M unit := modify (set_current state).

Definition Machine_Can (event : string) : M bool :=
  let* m := get in
  let ok := bool_decide (is_Some (transitions m !! mk_eKey event (current m))) in
  ret (ok && isNil (transition m)).

(** [order]: the keys of [m.transitions] as the [range] of line 131 yields
    them. *)
Definition Machine_AvailableTransitions (order : list eKey) : M (list string) :=
  let* m := get in
  ret (foldl (fun transitions key =>
                if String.eqb (eKey_src key) (current m)
                then (transitions ++ [eKey_event key])%list else transitions)
             [] order).

Definition Machine_Cannot (event : string) : M bool :=
  let* b := Machine_Can event in ret (negb b).

(** ** machine.go: the callback phases *)

(** [fn(e)]: run the callback found under [k]. The object behind [e] is
    updated in place; while a closure is pending it holds the same pointer, so
    the write is seen through [m.transition] as well. *)
Definition call (k : cKey) (fn : Callback) (e : Event) : M Event :=
  let e' := fn e in
  let* _ := modify (fun m =>
    set_calls (calls m ++ [mkCall k e'])%list
      (set_transition ((fun p => mkPending (Pending_dst p) e') <$> transition m) m)) in
  ret e'.

(** One block [if fn, ok := m.callbacks[k]; ok { fn(e); ... return ... }]:
    [check] is the test made on the context after the callback, and yields
    the error the block returns with, if any. *)
Definition block (k : cKey) (check : Event -> option error) (e : Event)
    : M (Event * option error) :=
  let* m := get in
  match callbacks m !! k with
  | Some fn => let* e := call k fn e in ret (e, check e)
  | None => ret (e, None)
  end.

(** [if e.canceled { return CanceledError{e.Err} }] *)
Definition ifCanceled (e : Event) : option error :=
  if Event_canceled e then Some (CanceledError (Event_Err e)) else None.

(** [if e.canceled { return CanceledError{e.Err} } else if e.async
    { return AsyncError{e.Err} }] *)
Definition ifCanceledOrAsync (e : Event) : option error :=
  if Event_canceled e then Some (CanceledError (Event_Err e))
  else if Event_async e then Some (AsyncError (Event_Err e))
  else None.

Definition noCheck (e : Event) : option error := None.

(** Two blocks in a row; the second runs unless the first returned. *)
Definition twoBlocks (k1 k2 : cKey) (check : Event -> option error) (e : Event)
    : M (Event * option error) :=
  let* r := block k1 check e in
  match r.2 with
  | Some _ => ret r
  | None => block k2 check r.1
  end.

Definition beforeEventCallbacks (e : Event) : M (Event * option error) :=
  let* m := get in
  twoBlocks (mk_cKey (current m) callbackBeforeEvent) (mk_cKey "" callbackBeforeEvent)
            ifCanceled e.

Definition leaveStateCallbacks (e : Event) : M (Event * option error) :=
  let* m := get in
  twoBlocks (mk_cKey (current m) callbackLeaveState) (mk_cKey "" callbackLeaveState)
            ifCanceledOrAsync e.

Definition enterStateCallbacks (e : Event) : M Event :=
  let* m := get in
  let* r := twoBlocks (mk_cKey (current m) callbackEnterState) (mk_cKey "" callbackEnterState)
                      noCheck e in
  ret r.1.

Definition afterEventCallbacks (e : Event) : M Event :=
  let* r := twoBlocks (mk_cKey (Event_Event e) callbackAfterEvent) (mk_cKey "" callbackAfterEvent)
                      noCheck e in
  ret r.1.

(** ** transition.go *)

(** The body of the closure of machine.go, lines 183 to 190. It returns the
    context as the callbacks left it. *)
Definition runPending (p : Pending) : M Event :=
  let* _ := modify (set_current (Pending_dst p)) in
  let* e := enterStateCallbacks (Pending_e p) in
  afterEventCallbacks e.

(** [func (t transitionerStruct) transition(m *Machine) error]. Next to the
    Go result it yields the context the closure worked on, which the caller
    in Go reads through its own pointer. *)
Definition transitionerStruct_transition : M (option error * option Event) :=
  let* m := get in
  match transition m with
  | None => ret (Some NotInTransitionError, None)
  | Some p =>
      let* e := runPending p in
      let* _ := modify (set_transition None) in
      ret (None, Some e)
  end.

(** [m.transitionerObj] is set to [&transitionerStruct{}] by [NewMachine]
    and never written again. *)
Definition Machine_doTransition : M (option error * option Event) :=
  transitionerStruct_transition.

(** ** machine.go: [Event] *)

(** Lines 159 to 167: the loop over [m.transitions]. Both branches of the
    loop body return, so only the first key the runtime yields is looked
    at; with no key the loop ends without returning. *)
Definition scan (order : list eKey) (event cur : string) : option error :=
  match order with
  | [] => None
  | ekey :: _ =>
      if String.eqb (eKey_event ekey) event
      then Some (InvalidEventError event cur)
      else Some (UnknownEventError event)
  end.

(** [order]: the keys of [m.transitions] as the [range] of line 159 yields
    them. *)
Definition Machine_Event (order : list eKey) (event : string) (args : list string)
    : M (option error) :=
  let* m := get in
  match transition m with
  | Some _ => ret (Some (InTransitionError event))
  | None =>
  let found := transitions m !! mk_eKey event (current m) in
  let dst := default "" found in
  match match found with None => scan order event (current m) | Some _ => None end with
  | Some err => ret (Some err)
  | None =>
  let e := mkEvent event (current m) dst None args false false in
  let* r := beforeEventCallbacks e in
  let e := r.1 in
  match r.2 with
  | Some err => ret (Some err)
  | None =>
  let* m := get in
  if String.eqb (current m) dst then
    let* e := afterEventCallbacks e in
    ret (Some (NoTransitionError (Event_Err e)))
  else
    let* _ := modify (set_transition (Some (mkPending dst e))) in
    let* r := leaveStateCallbacks e in
    let e := r.1 in
    match r.2 with
    | Some err =>
        let* _ := match err with
                  | CanceledError _ => modify (set_transition None)
                  | _ => ret tt
                  end in
        ret (Some err)
    | None =>
        let* r := Machine_doTransition in
        match r.1 with
        | Some _ => ret (Some InternalError)
        | None => ret (Event_Err (default e r.2))
        end
    end
  end end end.

(** ** The operations a caller can make, as one step function *)

Inductive op : Type :=
| OpCurrent
| OpIs (state : string)
| OpSetState (state : string)
| OpCan (event : string)
| OpCannot (event : string)
| OpAvailableTransitions (order : list eKey)
| OpEvent (order : list eKey) (event : string) (args : list string)
| OpTransition.

Inductive result : Type :=
| RString (s : string)
| RBool (b : bool)
| RStrings (l : list string)
| RUnit
| RError (err : option error).

Definition step (o : op) : M result :=
  match o with
  | OpCurrent => let* s := Machine_Current in ret (RString s)
  | OpIs state => let* b := Machine_Is state in ret (RBool b)
  | OpSetState state => let* _ := Machine_SetState state in ret RUnit
  | OpCan event => let* b := Machine_Can event in ret (RBool b)
  | OpCannot event => let* b := Machine_Cannot event in ret (RBool b)
  | OpAvailableTransitions order =>
      let* l := Machine_AvailableTransitions order in ret (RStrings l)
  | OpEvent order event args =>
      let* err := Machine_Event order event args in ret (RError err)
  | OpTransition => let* r := Machine_doTransition in ret (RError r.1)
  end.

(** Running a sequence of operations: the results, oldest first, and the
    machine at the end. *)
Fixpoint run (ops : list op) : M (list result) :=
  match ops with
  | [] => ret []
  | o :: ops =>
      let* r := step o in
      let* rs := run ops in
      ret (r :: rs)
  end.

(** ** What a phase does, as a list of calls *)

(** The outcome of a run of callback blocks: the calls made, the context at
    the end, and the error the run returned with. *)
Record Outcome : Type := mkOutcome {
  O_calls : list Call;
  O_e : Event;
  O_err : option error
}.

(** The blocks for the keys [ks] in a row, the first on [e] and each next
    one on the context its predecessor left; a block whose [check] yields an
    error ends the run. *)
Fixpoint runChecked (cbs : gmap cKey Callback) (check : Event -> option error)
    (ks : list cKey) (e : Event) : Outcome :=
  match ks with
  | [] => mkOutcome [] e None
  | k :: ks =>
      match cbs !! k with
      | None => runChecked cbs check ks e
      | Some fn =>
          let e' := fn e in
          match check e' with
          | Some err => mkOutcome [mkCall k e'] e' (Some err)
          | None =>
              let o := runChecked cbs check ks e' in
              mkOutcome (mkCall k e' :: O_calls o) (O_e o) (O_err o)
          end
      end
  end.

(** The machine after the calls of [o]: they are appended to the log, and
    a pending closure sees the context as the last call left it. *)
Definition logged (o : Outcome) (m : Machine) : Machine :=
  match O_calls o with
  | [] => m
  | _ :: _ =>
      set_calls (calls m ++ O_calls o)%list
        (set_transition ((fun p => mkPending (Pending_dst p) (O_e o)) <$> transition m) m)
  end.

Definition phase (c : Call) : callbackType := cKey_callbackType (Call_key c).

Definition beforeKeys (state : string) : list cKey :=
  [mk_cKey state callbackBeforeEvent; mk_cKey "" callbackBeforeEvent].

Definition leaveKeys (state : string) : list cKey :=
  [mk_cKey state callbackLeaveState; mk_cKey "" callbackLeaveState].

Definition enterKeys (state : string) : list cKey :=
  [mk_cKey state callbackEnterState; mk_cKey "" callbackEnterState].

Definition afterKeys (event : string) : list cKey :=
  [mk_cKey event callbackAfterEvent; mk_cKey "" callbackAfterEvent].

(** What the lookup of line 157 leaves in [dst]: the destination, or the
    zero value of [string] when the key is absent. *)
Definition destination (m : Machine) (event : string) : string :=
  default "" (transitions m !! mk_eKey event (current m)).

(** The context a trigger starts from (machine.go, line 170). *)
Definition newEvent (m : Machine) (event : string) (args : list string) : Event :=
  mkEvent event (current m) (destination m event) None args false false.

(** ** Histories *)

Definition isAsyncError (err : option error) : bool :=
  match err with
  | Some (AsyncError _) => true
  | _ => false
  end.

Definition isInTransitionError (err : option error) : bool :=
  match err with
  | Some (InTransitionError _) => true
  | _ => false
  end.

(** The results of [Event] after which the claim of the pending-slot
    invariant wants the slot empty. *)
Definition settled (err : option error) : bool :=
  match err with
  | None => true
  | Some (UnknownEventError _) => true
  | Some (InvalidEventError _ _) => true
  | Some (NoTransitionError _) => true
  | Some (CanceledError _) => true
  | Some InternalError => true
  | Some _ => false
  end.

(** "The most recent [Event] call returned [AsyncError] and no resume has
    since committed it", read off a history: [b] is the answer before the
    operation [o], which returned [r]. *)
Definition deferredLiteralStep (b : bool) (o : op) (r : result) : bool :=
  match o, r with
  | OpEvent _ _ _, RError err => isAsyncError err
  | OpTransition, RError None => false
  | _, _ => b
  end.

(** The same, with the [Event] calls that the pending-transition guard
    turned away ([InTransitionError]) not counted as triggers. *)
Definition deferredStep (b : bool) (o : op) (r : result) : bool :=
  match o, r with
  | OpEvent _ _ _, RError err => if isInTransitionError err then b else isAsyncError err
  | OpTransition, RError None => false
  | _, _ => b
  end.

Fixpoint history (f : bool -> op -> result -> bool) (b : bool)
    (ops : list op) (rs : list result) : bool :=
  match ops, rs with
  | o :: ops, r :: rs => history f (f b o r) ops rs
  | _, _ => b
  end.

(** No registered callback puts an [AsyncError] into the error field of the
    context. *)
Definition noAsyncAttached (m : Machine) : Prop :=
  forall k fn e, callbacks m !! k = Some fn ->
    isAsyncError (Event_Err e) = false -> isAsyncError (Event_Err (fn e)) = false.

Definition isResume (o : op) : bool :=
  match o with
  | OpTransition => true
  | _ => false
  end.

(** ** Machines used as examples *)

(** A machine with no event at all. *)
Definition emptyMachine : Machine := NewMachine "idle" [] [].

(** A door with one event, and a callback meant to run before it. *)
Definition doorMachine (fn : Callback) : Machine :=
  NewMachine "closed" [mkEventDesc "open" ["closed"] "opened"] [("before_open", fn)].

(** A machine that starts in [scanning], with one callback for leaving it. *)
Definition leavingMachine (fn : Callback) : Machine :=
  NewMachine "scanning" [mkEventDesc "finish" ["scanning"] "idle"] [("leave_scanning", fn)].

Definition leavingOrder : list eKey := [mk_eKey "finish" "scanning"].

(** A callback that stores an [AsyncError] in the error field and sets no
    flag: [func(e *Event) { e.Err = AsyncError{} }]. *)
Definition attachAsync : Callback := fun e =>
  mkEvent (Event_Event e) (Event_Src e) (Event_Dst e) (Some (AsyncError None))
          (Event_Args e) (Event_canceled e) (Event_async e).

(** A machine whose event [stay] leads from [scanning] to [scanning]. *)
Definition stayMachine : Machine :=
  NewMachine "scanning" [mkEventDesc "stay" ["scanning"] "scanning"]
    [("stay", Event_Cancel [UserError "after"]); ("scanning", Event_Async)].

(** The machine of the concrete scenario of the specification. *)
Definition scanMachine (callbacks : list (string * Callback)) : Machine :=
  NewMachine "idle"
    [mkEventDesc "scan" ["idle"] "scanning"; mkEventDesc "finish" ["scanning"] "idle"]
    callbacks.

Definition scanOrder : list eKey := [mk_eKey "finish" "scanning"; mk_eKey "scan" "idle"].

(** ** Notions for the properties of the construction and of the engine *)

(** The descriptor [e] gives the event [name] from the state [src]. *)
Definition describes (name src : string) (e : EventDesc) : Prop :=
  EventDesc_Name e = name /\ src ∈ EventDesc_Src e.

#[global] Instance describes_dec name src e : Decision (describes name src e).
Proof. unfold describes. apply _. Defined.

(** [order] lists the keys of the transition table of [m], each once: what
    a [range] over [m.transitions] can yield. *)
Definition rangeOrder (m : Machine) (order : list eKey) : Prop :=
  order ≡ₚ (map_to_list (transitions m)).*1.

(** Neither the first nor the last character of [x] is in [cutset]. *)
Definition untrimmed (cutset x : string) : bool :=
  match list_ascii_of_string x with
  | [] => true
  | c :: _ => negb (inCutset cutset c)
  end &&
  match last (list_ascii_of_string x) with
  | None => true
  | Some c => negb (inCutset cutset c)
  end.

(** The two methods of the context, as a callback can call them. *)
Inductive method : Type :=
| CallCancel (err : list error)
| CallAsync.

Definition applyMethod (e : Event) (c : method) : Event :=
  match c with
  | CallCancel err => Event_Cancel err e
  | CallAsync => Event_Async e
  end.

(** A callback that makes the method calls [cs] on its context, in order. *)
Definition methodCalls (cs : list method) : Callback := fun e => foldl applyMethod e cs.

(** The last error a [Cancel] of [cs] was given, if any. *)
Definition lastCancelError (cs : list method) : option error :=
  last (omap (fun c => match c with CallCancel (err :: _) => Some err | _ => None end) cs).

Definition hasCancel (cs : list method) : bool :=
  existsb (fun c => match c with CallCancel _ => true | CallAsync => false end) cs.

Definition hasAsync (cs : list method) : bool :=
  existsb (fun c => match c with CallAsync => true | CallCancel _ => false end) cs.

(** An operation that writes the current state directly. *)
Definition isSetState (o : op) : bool :=
  match o with
  | OpSetState _ => true
  | _ => false
  end.

(** The [range] orders that the operation [o] carries are orders of the
    table of [m]. *)
Definition opInRange (m : Machine) (o : op) : Prop :=
  match o with
  | OpEvent order _ _ => rangeOrder m order
  | OpAvailableTransitions order => rangeOrder m order
  | _ => True
  end.

(** A callback that stores [err] in the error field and sets no flag:
    [func(e *Event) { e.Err = err }]. *)
Definition attachError (err : error) : Callback := fun e =>
  mkEvent (Event_Event e) (Event_Src e) (Event_Dst e) (Some err)
          (Event_Args e) (Event_canceled e) (Event_async e).

(** A machine with two states, [up] and [down], where [up] is also the
    name of an event, and with one callback found in each phase of the
    trigger of [go] from [up]. *)
Definition liftMachine : Machine :=
  NewMachine "up"
    [mkEventDesc "go" ["up"] "down"; mkEventDesc "up" ["down"] "up"]
    [("before_up", attachError (UserError "before"));
     ("leave_up", attachError (UserError "leave"));
     ("down", attachError (UserError "enter"));
     ("go", attachError (UserError "after"))].

Definition liftOrder : list eKey := [mk_eKey "go" "up"; mk_eKey "up" "down"].

(** The machine with the states [up] and [down], with one callback, found
    before a trigger from [up], that asks for async. *)
Definition asyncBeforeMachine : Machine :=
  NewMachine "up"
    [mkEventDesc "go" ["up"] "down"; mkEventDesc "up" ["down"] "up"]
    [("before_up", Event_Async)].

(** The calls [l] hand one context along: the first is a registered
    callback applied to [e], each next one a registered callback applied to
    the context its predecessor left. *)
Fixpoint chained (cbs : gmap cKey Callback) (e : Event) (l : list Call) : Prop :=
  match l with
  | [] => True
  | c :: l =>
      (exists fn, cbs !! Call_key c = Some fn /\ Call_after c = fn e) /\
      chained cbs (Call_after c) l
  end.

(** * Properties *)

(** ** The setters and [logged] *)

Lemma logged_current o m : current (logged o m) = current m.
Proof. unfold logged. by destruct (O_calls o). Qed.

Lemma logged_callbacks o m : callbacks (logged o m) = callbacks m.
Proof. unfold logged. by destruct (O_calls o). Qed.

Lemma logged_calls o m : calls (logged o m) = (calls m ++ O_calls o)%list.
Proof. unfold logged. destruct (O_calls o); simpl; [by rewrite app_nil_r | done]. Qed.

Lemma logged_transition_None o m : transition m = None -> transition (logged o m) = None.
Proof. unfold logged. intros H. destruct (O_calls o); simpl; [done | by rewrite H]. Qed.

Lemma logged_transition_Some o m p :
  transition m = Some p ->
  transition (logged o m) =
    Some (mkPending (Pending_dst p) (match O_calls o with [] => Pending_e p | _ => O_e o end)).
Proof.
  unfold logged. intros H. destruct (O_calls o); simpl; rewrite H; [by destruct p | done].
Qed.

(** ** [runChecked] *)

Section RunChecked.
Variable cbs : gmap cKey Callback.
Variable check : Event -> option error.

(** A run without a call leaves the context as it was. *)
Lemma runChecked_nil_e ks e : O_calls (runChecked cbs check ks e) = [] ->
  O_e (runChecked cbs check ks e) = e.
Proof.
  revert e. induction ks as [|k ks IH]; intros e; simpl; [done |].
  destruct (cbs !! k) as [fn|]; [| by apply IH].
  by destruct (check (fn e)).
Qed.

(** A call after which [check] fires is the last one, and the run returns
    with what [check] gave. *)
Lemma runChecked_fires ks e c err :
  c ∈ O_calls (runChecked cbs check ks e) ->
  check (Call_after c) = Some err ->
  O_err (runChecked cbs check ks e) = Some err /\
  O_e (runChecked cbs check ks e) = Call_after c.
Proof.
  revert e. induction ks as [|k ks IH]; intros e; simpl.
  - by intros ?%elem_of_nil.
  - destruct (cbs !! k) as [fn|]; [| by apply IH].
    destruct (check (fn e)) as [err'|] eqn:Hc; simpl.
    + intros ->%list_elem_of_singleton; simpl. intros Hc'. split; congruence.
    + intros [->|Hin]%elem_of_cons; simpl; [congruence | by apply IH].
Qed.

(** A run that returns with an error made a call, the last one, after
    which [check] fired. *)
Lemma runChecked_err ks e err :
  O_err (runChecked cbs check ks e) = Some err ->
  exists c, c ∈ O_calls (runChecked cbs check ks e) /\
            Call_after c = O_e (runChecked cbs check ks e) /\
            check (Call_after c) = Some err.
Proof.
  revert e. induction ks as [|k ks IH]; intros e; simpl; [done |].
  destruct (cbs !! k) as [fn|]; [| by apply IH].
  destruct (check (fn e)) as [err'|] eqn:Hc; simpl.
  - intros [= ->]. exists (mkCall k (fn e)). split; [by left | done].
  - intros H. destruct (IH _ H) as (c & Hin & ? & ?). exists c. split; [by right | done].
Qed.

(** Every call is for one of the keys, and a registered one. *)
Lemma runChecked_keys ks e c :
  c ∈ O_calls (runChecked cbs check ks e) ->
  Call_key c ∈ ks /\ is_Some (cbs !! Call_key c).
Proof.
  revert e. induction ks as [|k ks IH]; intros e; simpl.
  - by intros ?%elem_of_nil.
  - destruct (cbs !! k) as [fn|] eqn:Hk.
    + destruct (check (fn e)); simpl.
      * intros ->%list_elem_of_singleton. split; [by left | by exists fn].
      * intros [->|Hin]%elem_of_cons; [split; [by left | by exists fn] |].
        destruct (IH _ Hin). split; [by right | done].
    + intros Hin. destruct (IH _ Hin). split; [by right | done].
Qed.

(** A property of the context that every callback keeps is kept by the run. *)
Lemma runChecked_preserves (P : Event -> Prop) ks e :
  (forall k fn e, cbs !! k = Some fn -> P e -> P (fn e)) ->
  P e -> P (O_e (runChecked cbs check ks e)).
Proof.
  intros HP. revert e. induction ks as [|k ks IH]; intros e He; simpl; [done |].
  destruct (cbs !! k) as [fn|] eqn:Hk; [| by apply IH].
  destruct (check (fn e)); simpl; [by eapply HP | apply IH; by eapply HP].
Qed.
End RunChecked.

(** Without a check, every registered key is called, in the order of [ks]. *)
Lemma runChecked_noCheck_keys cbs ks e :
  Call_key <$> O_calls (runChecked cbs noCheck ks e) =
  filter (fun k => is_Some (cbs !! k)) ks.
Proof.
  revert e. induction ks as [|k ks IH]; intros e; simpl; [done |].
  destruct (cbs !! k) as [fn|] eqn:Hk.
  - rewrite filter_cons_True; [| by rewrite Hk]. simpl. by rewrite IH.
  - rewrite filter_cons_False; [apply IH |]. rewrite Hk. by intros [? ?].
Qed.

(** The context at the end of a run is the one the last call left, or the
    one the run started from. *)
Lemma runChecked_last cbs check ks e :
  O_e (runChecked cbs check ks e) =
  default e (Call_after <$> last (O_calls (runChecked cbs check ks e))).
Proof.
  revert e. induction ks as [|k ks IH]; intros e; simpl; [done |].
  destruct (cbs !! k) as [fn|]; [| by apply IH].
  destruct (check (fn e)); simpl; [done |].
  rewrite IH. destruct (O_calls (runChecked cbs check ks (fn e))) as [|c l] eqn:Hl; [done |].
  rewrite last_cons_cons. destruct (last (c :: l)) eqn:E; [done |].
  by apply last_None in E.
Qed.

Lemma last_app_default {A} (l1 l2 : list A) (f : A -> Event) e :
  default (default e (f <$> last l1)) (f <$> last l2) = default e (f <$> last (l1 ++ l2)).
Proof.
  destruct l2 as [|x l2 _] using rev_ind; [by rewrite app_nil_r |].
  by rewrite app_assoc, !last_snoc.
Qed.

(** ** The phases are runs of two blocks *)

Lemma twoBlocks_eq k1 k2 check e m :
  twoBlocks k1 k2 check e m =
  let o := runChecked (callbacks m) check [k1; k2] e in ((O_e o, O_err o), logged o m).
Proof.
  destruct m as [c ts cbs t l].
  unfold twoBlocks, block, call, bind, get, ret, modify, logged; simpl.
  destruct (cbs !! k1) as [f1|]; simpl.
  - destruct (check (f1 e)); simpl; [done |].
    destruct (cbs !! k2) as [f2|]; simpl; [| done].
    unfold set_calls, set_transition; simpl.
    destruct (check (f2 (f1 e))); simpl; rewrite <- app_assoc; by destruct t.
  - destruct (cbs !! k2) as [f2|]; simpl; [| done].
    by destruct (check (f2 e)).
Qed.

Lemma beforeEventCallbacks_eq e m :
  beforeEventCallbacks e m =
  let o := runChecked (callbacks m) ifCanceled (beforeKeys (current m)) e in
  ((O_e o, O_err o), logged o m).
Proof. unfold beforeEventCallbacks, bind, get. by rewrite twoBlocks_eq. Qed.

Lemma leaveStateCallbacks_eq e m :
  leaveStateCallbacks e m =
  let o := runChecked (callbacks m) ifCanceledOrAsync (leaveKeys (current m)) e in
  ((O_e o, O_err o), logged o m).
Proof. unfold leaveStateCallbacks, bind, get. by rewrite twoBlocks_eq. Qed.

Lemma enterStateCallbacks_eq e m :
  enterStateCallbacks e m =
  let o := runChecked (callbacks m) noCheck (enterKeys (current m)) e in
  (O_e o, logged o m).
Proof. unfold enterStateCallbacks, bind, get, ret. by rewrite twoBlocks_eq. Qed.

Lemma afterEventCallbacks_eq e m :
  afterEventCallbacks e m =
  let o := runChecked (callbacks m) noCheck (afterKeys (Event_Event e)) e in
  (O_e o, logged o m).
Proof. unfold afterEventCallbacks, bind, get, ret. by rewrite twoBlocks_eq. Qed.

(** ** [Event], path by path *)

Arguments runChecked : simpl never.
Arguments logged : simpl never.

(** The machine an admitted trigger leaves behind, and its result, in terms
    of the runs of the four phases. *)
Lemma Machine_Event_eq order event args m :
  Machine_Event order event args m =
  match transition m with
  | Some _ => (Some (InTransitionError event), m)
  | None =>
    let found := transitions m !! mk_eKey event (current m) in
    let dst := default "" found in
    match match found with None => scan order event (current m) | Some _ => None end with
    | Some err => (Some err, m)
    | None =>
      let b := runChecked (callbacks m) ifCanceled (beforeKeys (current m))
                          (newEvent m event args) in
      match O_err b with
      | Some err => (Some err, logged b m)
      | None =>
        if String.eqb (current m) dst then
          let a := runChecked (callbacks m) noCheck (afterKeys (Event_Event (O_e b))) (O_e b) in
          (Some (NoTransitionError (Event_Err (O_e a))), logged a (logged b m))
        else
          let l := runChecked (callbacks m) ifCanceledOrAsync (leaveKeys (current m)) (O_e b) in
          let ml := logged l (set_transition (Some (mkPending dst (O_e b))) (logged b m)) in
          match O_err l with
          | Some (CanceledError x) => (Some (CanceledError x), set_transition None ml)
          | Some err => (Some err, ml)
          | None =>
            let n := runChecked (callbacks m) noCheck (enterKeys dst) (O_e l) in
            let a := runChecked (callbacks m) noCheck (afterKeys (Event_Event (O_e n))) (O_e n) in
            (Event_Err (O_e a),
             set_transition None (logged a (logged n (set_current dst ml))))
          end
      end
    end
  end.
Proof.
  unfold Machine_Event, bind at 1, get at 1.
  destruct (transition m) as [p|] eqn:Ht; [done |].
  cbv zeta.
  destruct (match transitions m !! _ with None => _ | Some _ => _ end); [done |].
  unfold bind at 1. rewrite beforeEventCallbacks_eq. cbv zeta. fold (newEvent m event args).
  set (b := runChecked _ ifCanceled _ _). simpl.
  destruct (O_err b); [done |].
  unfold bind at 1, get at 1. rewrite logged_current.
  set (dst := default "" _).
  destruct (String.eqb (current m) dst) eqn:Hd.
  - unfold bind, ret. rewrite afterEventCallbacks_eq. cbv zeta. by rewrite logged_callbacks.
  - unfold bind at 1, modify at 1. unfold bind at 1.
    rewrite leaveStateCallbacks_eq. cbv zeta. simpl.
    rewrite logged_callbacks, logged_current.
    set (l := runChecked _ ifCanceledOrAsync _ _).
    set (ml := logged l _).
    destruct (O_err l) as [err|] eqn:Hl.
    + by destruct err.
    + unfold bind at 1, Machine_doTransition, transitionerStruct_transition.
      unfold bind at 1, get at 1.
      assert (transition ml = Some (mkPending dst (O_e l))) as Hml.
      { unfold ml. erewrite logged_transition_Some; [| done]. simpl.
        destruct (O_calls l) eqn:Hc; [| done].
        pose proof (runChecked_nil_e _ _ _ _ Hc) as He.
        change (O_e l = O_e b) in He. by rewrite He. }
      rewrite Hml. unfold bind at 1, runPending.
      unfold bind at 1, modify at 1. unfold bind at 1.
      rewrite enterStateCallbacks_eq. cbv zeta. simpl.
      rewrite afterEventCallbacks_eq. cbv zeta.
      unfold bind, modify, ret. simpl.
      assert (callbacks ml = callbacks m) as Hcb.
      { unfold ml. by rewrite logged_callbacks; simpl; rewrite logged_callbacks. }
      rewrite ?logged_callbacks.
      change (callbacks (set_current dst ml)) with (callbacks ml).
      by rewrite Hcb.
Qed.

(** The phase of the calls of a run is the one of its keys. *)
Lemma runChecked_phase cbs check ks e t c :
  Forall (fun k => cKey_callbackType k = t) ks ->
  c ∈ O_calls (runChecked cbs check ks e) -> phase c = t.
Proof.
  intros Hks Hc. apply runChecked_keys in Hc as [Hc _].
  rewrite Forall_forall in Hks. by apply Hks.
Qed.

Lemma beforeKeys_phase s : Forall (fun k => cKey_callbackType k = callbackBeforeEvent) (beforeKeys s).
Proof. by repeat constructor. Qed.

Lemma leaveKeys_phase s : Forall (fun k => cKey_callbackType k = callbackLeaveState) (leaveKeys s).
Proof. by repeat constructor. Qed.

Lemma enterKeys_phase s : Forall (fun k => cKey_callbackType k = callbackEnterState) (enterKeys s).
Proof. by repeat constructor. Qed.

Lemma afterKeys_phase s : Forall (fun k => cKey_callbackType k = callbackAfterEvent) (afterKeys s).
Proof. by repeat constructor. Qed.

Create HintDb phases.
#[local] Hint Resolve beforeKeys_phase leaveKeys_phase enterKeys_phase afterKeys_phase : phases.

Lemma ifCanceled_fires e :
  Event_canceled e = true -> ifCanceled e = Some (CanceledError (Event_Err e)).
Proof. unfold ifCanceled. by intros ->. Qed.

Lemma ifCanceled_is_canceled e err :
  ifCanceled e = Some err -> err = CanceledError (Event_Err e) /\ Event_canceled e = true.
Proof. unfold ifCanceled. destruct (Event_canceled e); [by intros [= <-] | done]. Qed.

Lemma ifCanceledOrAsync_canceled e :
  Event_canceled e = true -> ifCanceledOrAsync e = Some (CanceledError (Event_Err e)).
Proof. unfold ifCanceledOrAsync. by intros ->. Qed.

Lemma ifCanceledOrAsync_async e :
  Event_canceled e = false -> Event_async e = true ->
  ifCanceledOrAsync e = Some (AsyncError (Event_Err e)).
Proof. unfold ifCanceledOrAsync. by intros -> ->. Qed.

Lemma ifCanceledOrAsync_cases e err :
  ifCanceledOrAsync e = Some err ->
  (err = CanceledError (Event_Err e) /\ Event_canceled e = true) \/
  (err = AsyncError (Event_Err e) /\ Event_canceled e = false /\ Event_async e = true).
Proof.
  unfold ifCanceledOrAsync.
  destruct (Event_canceled e); [intros [= <-]; by left |].
  destruct (Event_async e); [intros [= <-]; by right | done].
Qed.

(** What a trigger that got past the guards leaves behind: the new calls, as
    a list, and how the result follows from the flags they set. *)
Lemma Event_flags order event args m r m' :
  transition m = None ->
  Machine_Event order event args m = (r, m') ->
  exists new, calls m' = (calls m ++ new)%list /\
    (forall c, c ∈ new ->
       phase c = callbackBeforeEvent \/ phase c = callbackLeaveState ->
       Event_canceled (Call_after c) = true ->
       r = Some (CanceledError (Event_Err (Call_after c))) /\
       current m' = current m /\ transition m' = None) /\
    (forall c, c ∈ new ->
       phase c = callbackLeaveState ->
       Event_canceled (Call_after c) = false ->
       Event_async (Call_after c) = true ->
       r = Some (AsyncError (Event_Err (Call_after c))) /\
       current m' = current m /\
       transition m' = Some (mkPending (destination m event) (Call_after c))).
Proof.
  intros Ht. rewrite Machine_Event_eq, Ht. cbv zeta.
  fold (destination m event). set (dst := destination m event).
  destruct (match transitions m !! _ with None => _ | Some _ => _ end).
  { intros [= <- <-]. exists []. rewrite app_nil_r. split; [done |].
    split; intros c Hc; by apply elem_of_nil in Hc. }
  set (b := runChecked _ ifCanceled _ _).
  assert (forall c, c ∈ O_calls b -> phase c = callbackBeforeEvent) as Hpb.
  { intros c. apply runChecked_phase. auto with phases. }
  destruct (O_err b) as [errb|] eqn:Hb.
  { intros [= <- <-]. exists (O_calls b). rewrite logged_calls. split; [done |].
    split; intros c Hc.
    - intros _ Hcan. apply ifCanceled_fires in Hcan.
      destruct (runChecked_fires _ _ _ _ _ _ Hc Hcan) as [Hb' _].
      fold b in Hb'. rewrite Hb in Hb'.
      rewrite logged_current. split; [done |]. split; [done |].
      by apply logged_transition_None.
    - intros Hp. rewrite (Hpb c Hc) in Hp. discriminate. }
  assert (forall c, c ∈ O_calls b -> Event_canceled (Call_after c) = true -> False) as Hnb.
  { intros c Hc Hcan. apply ifCanceled_fires in Hcan.
    destruct (runChecked_fires _ _ _ _ _ _ Hc Hcan) as [Hb' _].
    fold b in Hb'. congruence. }
  destruct (String.eqb (current m) dst) eqn:Hd.
  { set (a := runChecked _ noCheck _ _).
    assert (forall c, c ∈ O_calls a -> phase c = callbackAfterEvent) as Hpa.
    { intros c. apply runChecked_phase. auto with phases. }
    intros [= <- <-]. exists (O_calls b ++ O_calls a)%list.
    rewrite !logged_calls, app_assoc. split; [done |].
    split; intros c [Hc|Hc]%elem_of_app.
    - intros _ Hcan. by destruct (Hnb c Hc Hcan).
    - rewrite (Hpa c Hc). by intros [|].
    - rewrite (Hpb c Hc). done.
    - rewrite (Hpa c Hc). done. }
  set (l := runChecked _ ifCanceledOrAsync _ _).
  set (ml := logged l _).
  assert (forall c, c ∈ O_calls l -> phase c = callbackLeaveState) as Hpl.
  { intros c. apply runChecked_phase. auto with phases. }
  assert (calls ml = (calls m ++ (O_calls b ++ O_calls l))%list) as Hcalls.
  { unfold ml. rewrite logged_calls. simpl. by rewrite logged_calls, app_assoc. }
  assert (current ml = current m) as Hcur.
  { unfold ml. rewrite logged_current. simpl. by rewrite logged_current. }
  destruct (O_err l) as [errl|] eqn:Hl.
  { destruct (runChecked_err _ _ _ _ _ Hl) as (c0 & Hc0 & He0 & Hck0).
    fold l in Hc0, He0.
    assert (transition ml = Some (mkPending dst (Call_after c0))) as Hml.
    { unfold ml. erewrite logged_transition_Some; [| done]. simpl.
      destruct (O_calls l); [by apply elem_of_nil in Hc0 | by rewrite He0]. }
    intros Heq.
    assert (r = Some errl /\
            m' = match errl with CanceledError _ => set_transition None ml | _ => ml end)
      as [-> ->] by (destruct errl; injection Heq as <- <-; done).
    exists (O_calls b ++ O_calls l)%list. split.
    { by destruct errl. }
    split; intros c [Hc|Hc]%elem_of_app.
    - intros _ Hcan. by destruct (Hnb c Hc Hcan).
    - intros _ Hcan. apply ifCanceledOrAsync_canceled in Hcan.
      destruct (runChecked_fires _ _ _ _ _ _ Hc Hcan) as [Hl' _].
      fold l in Hl'. rewrite Hl in Hl'. injection Hl' as ->. done.
    - rewrite (Hpb c Hc). done.
    - intros _ Hcan Has. pose proof (ifCanceledOrAsync_async _ Hcan Has) as Hck.
      destruct (runChecked_fires _ _ _ _ _ _ Hc Hck) as [Hl' He'].
      fold l in Hl', He'. rewrite Hl in Hl'. injection Hl' as ->.
      split; [done |]. split; [done |]. rewrite Hml. congruence. }
  set (n := runChecked _ noCheck (enterKeys _) _).
  set (a := runChecked _ noCheck (afterKeys _) _).
  assert (forall c, c ∈ O_calls n -> phase c = callbackEnterState) as Hpn.
  { intros c. apply runChecked_phase. auto with phases. }
  assert (forall c, c ∈ O_calls a -> phase c = callbackAfterEvent) as Hpa.
  { intros c. apply runChecked_phase. auto with phases. }
  assert (forall c, c ∈ O_calls l -> ifCanceledOrAsync (Call_after c) = None) as Hnl.
  { intros c Hc. destruct (ifCanceledOrAsync (Call_after c)) as [err|] eqn:Hck; [| done].
    destruct (runChecked_fires _ _ _ _ _ _ Hc Hck) as [Hl' _].
    fold l in Hl'. congruence. }
  intros [= <- <-]. exists (O_calls b ++ O_calls l ++ O_calls n ++ O_calls a)%list.
  split.
  { simpl. rewrite !logged_calls. simpl. rewrite Hcalls. by rewrite <- !app_assoc. }
  split; intros c Hc; rewrite !elem_of_app in Hc; destruct Hc as [Hc|[Hc|[Hc|Hc]]].
  - intros _ Hcan. by destruct (Hnb c Hc Hcan).
  - intros _ Hcan. apply ifCanceledOrAsync_canceled in Hcan. rewrite (Hnl c Hc) in Hcan. done.
  - rewrite (Hpn c Hc). by intros [|].
  - rewrite (Hpa c Hc). by intros [|].
  - rewrite (Hpb c Hc). done.
  - intros _ Hcan Has. pose proof (ifCanceledOrAsync_async _ Hcan Has) as Hck.
    rewrite (Hnl c Hc) in Hck. done.
  - rewrite (Hpn c Hc). done.
  - rewrite (Hpa c Hc). done.
Qed.

Lemma Event_flags_new order event args m r m' new c :
  transition m = None ->
  Machine_Event order event args m = (r, m') ->
  calls m' = (calls m ++ new)%list -> c ∈ new ->
  (phase c = callbackBeforeEvent \/ phase c = callbackLeaveState ->
   Event_canceled (Call_after c) = true ->
   r = Some (CanceledError (Event_Err (Call_after c))) /\
   current m' = current m /\ transition m' = None) /\
  (phase c = callbackLeaveState ->
   Event_canceled (Call_after c) = false ->
   Event_async (Call_after c) = true ->
   r = Some (AsyncError (Event_Err (Call_after c))) /\
   current m' = current m /\
   transition m' = Some (mkPending (destination m event) (Call_after c))).
Proof.
  intros Ht He Hnew Hc.
  destruct (Event_flags _ _ _ _ _ _ Ht He) as (new' & Hnew' & H1 & H2).
  rewrite Hnew in Hnew'. apply app_inv_head in Hnew' as <-.
  split; [by apply H1 | by apply H2].
Qed.

(** ** The claims *)

(** C1 (the claim fails on the code). The loop that tells an unknown event
    from a known one returns in its first iteration. On a machine with no
    event the loop body never runs, and [Event] goes on with the empty string
    as destination: the trigger of an event that is in no table entry
    succeeds and the current state becomes the empty string. On the machine
    of the specification's scenario, in state [scanning], with the runtime
    yielding the key of [finish] first, the known event [scan] is reported as
    [UnknownEventError]. *)
Theorem C1_scan_returns_in_first_iteration :
  (transitions emptyMachine = ∅ /\
   (Machine_Event [] "bogus" [] emptyMachine).1 = None /\
   current (Machine_Event [] "bogus" [] emptyMachine).2 = "") /\
  (let m := (Machine_Event scanOrder "scan" [] (scanMachine [])).2 in
   current m = "scanning" /\
   scanOrder ≡ₚ (map_to_list (transitions m)).*1 /\
   transitions m !! mk_eKey "scan" "scanning" = None /\
   transitions m !! mk_eKey "scan" "idle" = Some "scanning" /\
   (Machine_Event scanOrder "scan" [] m).1 = Some (UnknownEventError "scan")).
Proof.
  split; [by vm_compute |]. cbv zeta.
  split; [by vm_compute |]. split; [| by vm_compute].
  assert ((map_to_list (transitions (Machine_Event scanOrder "scan" [] (scanMachine [])).2)).*1
          = [mk_eKey "scan" "idle"; mk_eKey "finish" "scanning"]) as -> by (by vm_compute).
  apply perm_swap.
Qed.

(** C2 (the claim fails on the code). [NewMachine] removes the prefix with
    [strings.Trim], which takes its second argument as a set of characters
    and trims both ends. The name [before_open] resolves to the target [pen],
    so the callback for the known event [open] is dropped; and no one of the
    four literal names registers anything under the wildcard target, the
    empty string, which is the key the dispatch looks up. *)
Theorem C2_trim_takes_a_cutset (fn : Callback) :
  (resolve (buildTables [mkEventDesc "open" ["closed"] "opened"]) "before_open"
     = mk_cKey "pen" callbackNone /\
   callbacks (doorMachine fn) = ∅) /\
  (Trim "before_event" "before_" = "vent" /\ Trim "leave_state" "leave_" = "stat" /\
   Trim "enter_state" "enter_" = "sta" /\ Trim "after_event" "after_" = "ven") /\
  (forall initialState events name t,
     name ∈ ["before_event"; "leave_state"; "enter_state"; "after_event"] ->
     callbacks (NewMachine initialState events [(name, fn)]) !! mk_cKey "" t = None).
Proof.
  split; [by vm_compute |]. split; [by vm_compute |].
  intros initialState events name t Hname.
  unfold NewMachine; simpl. set (tb := buildTables events).
  unfold register; simpl.
  assert (cKey_target (resolve tb name) <> "") as Hne.
  { rewrite !elem_of_cons in Hname.
    destruct Hname as [->|[->|[->|[->|Hname]]]]; [| | | | by apply elem_of_nil in Hname];
      unfold resolve; cbn -[elem_of]; by repeat case_bool_decide. }
  case_bool_decide; [| done].
  apply lookup_insert_None. split; [done |].
  intros Heq. apply Hne. by rewrite Heq.
Qed.

(** C3 (the claim fails on the code). [beforeEventCallbacks] looks the
    specific callback up under the current state, not under the name of the
    event. On the machine of the specification's scenario, a callback given
    as [before_scan] is registered for the event [scan], and the trigger of
    [scan] goes through, from [idle] to [scanning], without any call. *)
Theorem C3_before_is_looked_up_by_state (fn : Callback) :
  let m := scanMachine [("before_scan", fn)] in
  callbacks m !! mk_cKey "scan" callbackBeforeEvent = Some fn /\
  transitions m !! mk_eKey "scan" "idle" = Some "scanning" /\
  (Machine_Event scanOrder "scan" [] m).1 = None /\
  current (Machine_Event scanOrder "scan" [] m).2 = "scanning" /\
  calls (Machine_Event scanOrder "scan" [] m).2 = [].
Proof. by vm_compute. Qed.

(** C4. A trigger whose looked-up destination is the current state, and
    whose before-event callbacks return no error, is the before-event phase
    followed by the after-event phase: it returns [NoTransitionError] around
    the error field of the context; the current state is the same and nothing
    is pending; the calls it makes are those of the before-event phase, then
    the after-event callback for the event of the context if there is one,
    then the after-event callback for the empty target if there is one, so
    there is no call for leaving or entering a state; and the context at the
    end is as the last call left it, the fresh one (with a nil error) if
    there was no call. *)
Theorem C4_self_transition order event args m e1 m1 e2 m2 :
  transition m = None ->
  transitions m !! mk_eKey event (current m) = Some (current m) ->
  beforeEventCallbacks (newEvent m event args) m = ((e1, None), m1) ->
  afterEventCallbacks e1 m1 = (e2, m2) ->
  Machine_Event order event args m = (Some (NoTransitionError (Event_Err e2)), m2) /\
  current m2 = current m /\ transition m2 = None /\
  exists before after,
    calls m2 = (calls m ++ before ++ after)%list /\
    Forall (fun c => phase c = callbackBeforeEvent) before /\
    Forall (fun c => phase c = callbackAfterEvent) after /\
    Call_key <$> after =
      filter (fun k => is_Some (callbacks m !! k)) (afterKeys (Event_Event e1)) /\
    e2 = default (newEvent m event args) (Call_after <$> last (before ++ after)).
Proof.
  intros Ht Hfound. rewrite beforeEventCallbacks_eq. cbv zeta.
  set (b := runChecked _ ifCanceled _ _). intros [= <- Hb <-].
  rewrite afterEventCallbacks_eq. cbv zeta. rewrite logged_callbacks.
  set (a := runChecked _ noCheck _ _). intros [= <- <-].
  split.
  { rewrite Machine_Event_eq, Ht. cbv zeta. rewrite Hfound. simpl.
    fold b. rewrite Hb, String.eqb_refl. done. }
  rewrite !logged_current. split; [done |].
  split; [by do 2 apply logged_transition_None |].
  exists (O_calls b), (O_calls a). rewrite !logged_calls, app_assoc.
  split; [done |]. split; [| split; [| split]].
  - apply Forall_forall. intros c. apply runChecked_phase. auto with phases.
  - apply Forall_forall. intros c. apply runChecked_phase. auto with phases.
  - apply runChecked_noCheck_keys.
  - unfold a. rewrite runChecked_last. fold a. unfold b at 1. rewrite runChecked_last. fold b.
    apply last_app_default.
Qed.

(** C4, on [stayMachine]: the event [stay] leads from [scanning] to
    [scanning]; the callback for entering [scanning] is not called, the one
    after [stay] is, and attaches an error. *)
Lemma C4_self_transition_witness :
  let r := afterEventCallbacks (newEvent stayMachine "stay" []) stayMachine in
  (Machine_Event [mk_eKey "stay" "scanning"] "stay" [] stayMachine
     = (Some (NoTransitionError (Some (UserError "after"))), r.2)) /\
  current r.2 = "scanning" /\ transition r.2 = None /\
  Call_key <$> calls r.2 = [mk_cKey "stay" callbackAfterEvent].
Proof.
  cbv zeta.
  destruct (C4_self_transition [mk_eKey "stay" "scanning"] "stay" [] stayMachine
              (newEvent stayMachine "stay" []) stayMachine
              (afterEventCallbacks (newEvent stayMachine "stay" []) stayMachine).1
              (afterEventCallbacks (newEvent stayMachine "stay" []) stayMachine).2)
    as (He & Hc & Ht & _); [by vm_compute | by vm_compute | by vm_compute | by vm_compute |].
  split; [exact He |]. split; [exact Hc |]. split; [exact Ht |]. by vm_compute.
Defined.

(** C6. In a trigger that got past the pending-transition guard, take any
    call the trigger makes. If it is a before-event or leave-state call that
    leaves the cancel flag set, [Event] returns [CanceledError] around the
    error field as that call left it, the current state is the same and
    nothing is pending. If it is a leave-state call that leaves the async
    flag set and the cancel flag clear, [Event] returns [AsyncError], the
    current state is the same, and the closure for the destination is
    pending. *)
Theorem C6_cancel_and_async order event args m r m' new c :
  transition m = None ->
  Machine_Event order event args m = (r, m') ->
  calls m' = (calls m ++ new)%list -> c ∈ new ->
  (phase c = callbackBeforeEvent \/ phase c = callbackLeaveState ->
   Event_canceled (Call_after c) = true ->
   r = Some (CanceledError (Event_Err (Call_after c))) /\
   current m' = current m /\ transition m' = None) /\
  (phase c = callbackLeaveState ->
   Event_canceled (Call_after c) = false ->
   Event_async (Call_after c) = true ->
   r = Some (AsyncError (Event_Err (Call_after c))) /\
   current m' = current m /\
   transition m' = Some (mkPending (destination m event) (Call_after c))).
Proof. apply Event_flags_new. Qed.

(** C10. A leave-state call that leaves both the cancel flag and the async
    flag set: [Event] returns [CanceledError], which is not an [AsyncError];
    nothing is pending and the current state is the same. *)
Theorem C10_cancel_wins_over_async order event args m r m' new c :
  transition m = None ->
  Machine_Event order event args m = (r, m') ->
  calls m' = (calls m ++ new)%list -> c ∈ new ->
  phase c = callbackLeaveState ->
  Event_canceled (Call_after c) = true ->
  Event_async (Call_after c) = true ->
  r = Some (CanceledError (Event_Err (Call_after c))) /\
  isAsyncError r = false /\
  transition m' = None /\
  current m' = current m.
Proof.
  intros Ht He Hnew Hc Hp Hcan _.
  destruct (Event_flags_new _ _ _ _ _ _ _ _ Ht He Hnew Hc) as [H _].
  destruct H as (-> & ? & ?); [by right | done | done].
Qed.

(** C6, on [leavingMachine]: a leave-state callback that cancels with an
    error, and one that asks for async. *)
Lemma C6_cancel_and_async_witness :
  (let m := leavingMachine (Event_Cancel [UserError "busy"]) in
   let res := Machine_Event leavingOrder "finish" [] m in
   res.1 = Some (CanceledError (Some (UserError "busy"))) /\
   current res.2 = "scanning" /\ transition res.2 = None) /\
  (let m := leavingMachine Event_Async in
   let res := Machine_Event leavingOrder "finish" [] m in
   res.1 = Some (AsyncError None) /\
   current res.2 = "scanning" /\
   transition res.2 = Some (mkPending "idle" (Event_Async (newEvent m "finish" [])))).
Proof.
  split; cbv zeta.
  - pose (m := leavingMachine (Event_Cancel [UserError "busy"])).
    pose (c := mkCall (mk_cKey "scanning" callbackLeaveState)
                      (Event_Cancel [UserError "busy"] (newEvent m "finish" []))).
    destruct (C6_cancel_and_async leavingOrder "finish" [] m
                (Machine_Event leavingOrder "finish" [] m).1
                (Machine_Event leavingOrder "finish" [] m).2 [c] c) as [H _];
      [by vm_compute | by vm_compute | by vm_compute | by left |].
    apply H; [by right | by vm_compute].
  - pose (m := leavingMachine Event_Async).
    pose (c := mkCall (mk_cKey "scanning" callbackLeaveState)
                      (Event_Async (newEvent m "finish" []))).
    destruct (C6_cancel_and_async leavingOrder "finish" [] m
                (Machine_Event leavingOrder "finish" [] m).1
                (Machine_Event leavingOrder "finish" [] m).2 [c] c) as [_ H];
      [by vm_compute | by vm_compute | by vm_compute | by left |].
    apply H; by vm_compute.
Defined.

(** C10, on [leavingMachine]: the callback sets both flags. *)
Lemma C10_cancel_wins_over_async_witness :
  let m := leavingMachine (fun e => Event_Async (Event_Cancel [] e)) in
  let res := Machine_Event leavingOrder "finish" [] m in
  res.1 = Some (CanceledError None) /\ isAsyncError res.1 = false /\
  transition res.2 = None /\ current res.2 = "scanning".
Proof.
  cbv zeta.
  pose (m := leavingMachine (fun e => Event_Async (Event_Cancel [] e))).
  pose (c := mkCall (mk_cKey "scanning" callbackLeaveState)
                    (Event_Async (Event_Cancel [] (newEvent m "finish" [])))).
  apply (C10_cancel_wins_over_async leavingOrder "finish" [] m
           (Machine_Event leavingOrder "finish" [] m).1
           (Machine_Event leavingOrder "finish" [] m).2 [c] c);
    [by vm_compute | by vm_compute | by vm_compute | by left | by vm_compute ..].
Defined.

(** C9. [SetState] overwrites the current state with its argument, whatever
    the string and whatever the tables hold; it returns nothing, so no
    error; it makes no call; and the tables and the pending closure are as
    before. *)
Theorem C9_SetState state m :
  Machine_SetState state m = (tt, set_current state m) /\
  step (OpSetState state) m = (RUnit, set_current state m) /\
  current (set_current state m) = state /\
  transitions (set_current state m) = transitions m /\
  callbacks (set_current state m) = callbacks m /\
  transition (set_current state m) = transition m /\
  calls (set_current state m) = calls m.
Proof. done. Qed.

(** ** The queries *)

Lemma AvailableTransitions_foldl cur order acc :
  foldl (fun transitions key =>
           if String.eqb (eKey_src key) cur
           then (transitions ++ [eKey_event key])%list else transitions) acc order =
  (acc ++ (eKey_event <$> filter (fun key => eKey_src key = cur) order))%list.
Proof.
  revert acc. induction order as [|key order IH]; intros acc; simpl.
  - by rewrite app_nil_r.
  - rewrite IH. destruct (String.eqb_spec (eKey_src key) cur) as [Heq|Hne].
    + rewrite filter_cons_True by done. simpl. by rewrite <- app_assoc.
    + by rewrite filter_cons_False by done.
Qed.

Lemma elem_of_keys (m : Machine) (k : eKey) :
  k ∈ (map_to_list (transitions m)).*1 <-> is_Some (transitions m !! k).
Proof.
  rewrite list_elem_of_fmap. split.
  - intros ([k' v] & -> & Hin). apply elem_of_map_to_list in Hin. by exists v.
  - intros [v Hv]. exists (k, v). split; [done |]. by apply elem_of_map_to_list.
Qed.

(** C7. With [order] the keys of the transition table in the order the
    runtime yields them: [Can] is true exactly when the key of the event and
    the current state is in the table and nothing is pending; [Cannot] is its
    negation; an event name is in the result of [AvailableTransitions]
    exactly when its key with the current state is in the table, and it is
    there once; and the three queries leave the machine as it is. *)
Theorem C7_queries m event order :
  order ≡ₚ (map_to_list (transitions m)).*1 ->
  ((Machine_Can event m).1 = true <->
     is_Some (transitions m !! mk_eKey event (current m)) /\ transition m = None) /\
  (Machine_Cannot event m).1 = negb (Machine_Can event m).1 /\
  (forall e, e ∈ (Machine_AvailableTransitions order m).1 <->
             is_Some (transitions m !! mk_eKey e (current m))) /\
  NoDup (Machine_AvailableTransitions order m).1 /\
  (Machine_Can event m).2 = m /\
  (Machine_Cannot event m).2 = m /\
  (Machine_AvailableTransitions order m).2 = m.
Proof.
  intros Hperm. unfold Machine_Can, Machine_Cannot, Machine_AvailableTransitions,
    Machine_Can, bind, get, ret; simpl.
  split; [| split; [done |]; split; [| split; [| done]]].
  - rewrite andb_true_iff, bool_decide_eq_true.
    destruct (transition m); simpl; intuition congruence.
  - intros e. rewrite AvailableTransitions_foldl. simpl.
    rewrite list_elem_of_fmap. setoid_rewrite list_elem_of_filter.
    rewrite <- elem_of_keys, <- Hperm. split.
    + intros ([e' s] & -> & Hs & Hin). simpl in *. by subst s.
    + intros Hin. by exists (mk_eKey e (current m)).
  - rewrite AvailableTransitions_foldl. simpl.
    assert (NoDup order) as Hnd.
    { rewrite Hperm. apply NoDup_fst_map_to_list. }
    apply NoDup_fmap_2_strong; [| by apply NoDup_filter].
    intros [e1 s1] [e2 s2] [Hs1 _]%list_elem_of_filter [Hs2 _]%list_elem_of_filter.
    simpl in *. congruence.
Qed.

(** C7, on the machine of the specification's scenario. *)
Lemma C7_queries_witness :
  let m := scanMachine [] in
  (Machine_Can "scan" m).1 = true /\ (Machine_Cannot "scan" m).1 = false /\
  (Machine_Can "finish" m).1 = false /\
  (Machine_AvailableTransitions scanOrder m).1 = ["scan"] /\
  (forall e, e ∈ ["scan"] <-> is_Some (transitions m !! mk_eKey e (current m))).
Proof.
  cbv zeta.
  assert (scanOrder ≡ₚ (map_to_list (transitions (scanMachine []))).*1) as Hperm.
  { assert ((map_to_list (transitions (scanMachine []))).*1
            = [mk_eKey "scan" "idle"; mk_eKey "finish" "scanning"]) as -> by (by vm_compute).
    apply perm_swap. }
  destruct (C7_queries (scanMachine []) "scan" scanOrder Hperm) as (_ & _ & H & _).
  split; [by vm_compute |]. split; [by vm_compute |]. split; [by vm_compute |].
  split; [by vm_compute |]. exact H.
Defined.

(** ** The resume *)

Lemma doTransition_not_pending m :
  transition m = None -> Machine_doTransition m = ((Some NotInTransitionError, None), m).
Proof.
  intros Ht. unfold Machine_doTransition, transitionerStruct_transition, bind, get.
  by rewrite Ht.
Qed.

Lemma doTransition_pending m p :
  transition m = Some p ->
  let n := runChecked (callbacks m) noCheck (enterKeys (Pending_dst p)) (Pending_e p) in
  let a := runChecked (callbacks m) noCheck (afterKeys (Event_Event (O_e n))) (O_e n) in
  Machine_doTransition m =
    ((None, Some (O_e a)),
     set_transition None (logged a (logged n (set_current (Pending_dst p) m)))).
Proof.
  intros Ht. cbv zeta.
  unfold Machine_doTransition, transitionerStruct_transition.
  unfold bind at 1, get at 1. rewrite Ht.
  unfold bind at 1, runPending. unfold bind at 1, modify at 1. unfold bind at 1.
  rewrite enterStateCallbacks_eq. cbv zeta. simpl.
  rewrite afterEventCallbacks_eq. cbv zeta.
  unfold bind, modify, ret. by rewrite logged_callbacks.
Qed.

(** While a closure is pending, an operation other than the resume leaves
    it, the tables and the log as they are, and an [Event] is turned away. *)
Lemma step_pending o m p :
  transition m = Some p -> isResume o = false ->
  transition (step o m).2 = Some p /\
  calls (step o m).2 = calls m /\
  callbacks (step o m).2 = callbacks m /\
  (forall order event args, o = OpEvent order event args ->
     step o m = (RError (Some (InTransitionError event)), m)).
Proof.
  intros Ht Ho. destruct o; try done; simpl.
  unfold bind, ret. rewrite Machine_Event_eq, Ht. simpl.
  do 3 (split; [done |]). by intros ??? [= _ <- _].
Qed.

Lemma run_cons o ops m :
  run (o :: ops) m =
  ((step o m).1 :: (run ops (step o m).2).1, (run ops (step o m).2).2).
Proof.
  simpl. unfold bind at 1. destruct (step o m) as [r m1]. unfold bind, ret. simpl.
  by destruct (run ops m1).
Qed.

Lemma run_pending ops m p :
  transition m = Some p -> Forall (fun o => isResume o = false) ops ->
  transition (run ops m).2 = Some p /\
  calls (run ops m).2 = calls m /\
  callbacks (run ops m).2 = callbacks m /\
  Forall2 (fun o r => forall order event args, o = OpEvent order event args ->
                        r = RError (Some (InTransitionError event)))
          ops (run ops m).1.
Proof.
  intros Ht Hops. revert m Ht.
  induction Hops as [|o ops Ho Hops IH]; intros m Ht.
  { simpl. do 3 (split; [done |]). constructor. }
  rewrite run_cons. simpl.
  destruct (step_pending o m p Ht Ho) as (Ht1 & Hc1 & Hcb1 & Hev).
  destruct (IH _ Ht1) as (Ht2 & Hc2 & Hcb2 & Hrs).
  split; [done |]. split; [congruence |]. split; [congruence |].
  constructor; [| done]. intros order event args Heq. by rewrite (Hev _ _ _ Heq).
Qed.

(** C5. Take a trigger in which a leave-state call leaves the async flag
    set and the cancel flag clear. It returns [AsyncError] and leaves the
    closure for the destination pending. After any operations other than the
    resume, the same closure is pending and no call has been made; each
    [Event] among them returned [InTransitionError], and so does any further
    one, leaving the machine as it is. The resume then returns nil: the
    current state is the destination, nothing is pending, and the calls made
    are the registered enter-state callbacks for the destination and for the
    empty target, then the registered after-event callbacks for the event of
    the context and for the empty target, each run of the two phases made
    once; a second resume returns [NotInTransitionError] and changes nothing,
    as does a resume on any machine with nothing pending. *)
Theorem C5_async_protocol order event args m r m1 new c :
  transition m = None ->
  Machine_Event order event args m = (r, m1) ->
  calls m1 = (calls m ++ new)%list -> c ∈ new ->
  phase c = callbackLeaveState ->
  Event_canceled (Call_after c) = false ->
  Event_async (Call_after c) = true ->
  let dst := destination m event in
  r = Some (AsyncError (Event_Err (Call_after c))) /\
  transition m1 = Some (mkPending dst (Call_after c)) /\
  (forall ops, Forall (fun o => isResume o = false) ops ->
     let m2 := (run ops m1).2 in
     transition m2 = transition m1 /\ calls m2 = calls m1 /\
     Forall2 (fun o r => forall order' event' args', o = OpEvent order' event' args' ->
                           r = RError (Some (InTransitionError event')))
             ops (run ops m1).1 /\
     (forall order' event' args',
        Machine_Event order' event' args' m2 = (Some (InTransitionError event'), m2)) /\
     let m3 := (Machine_doTransition m2).2 in
     (Machine_doTransition m2).1.1 = None /\
     current m3 = dst /\ transition m3 = None /\
     (exists enter after,
        calls m3 = (calls m2 ++ enter ++ after)%list /\
        Call_key <$> enter = filter (fun k => is_Some (callbacks m !! k)) (enterKeys dst) /\
        Call_key <$> after =
          filter (fun k => is_Some (callbacks m !! k))
                 (afterKeys (Event_Event (default (Call_after c) (Call_after <$> last enter))))) /\
     Machine_doTransition m3 = ((Some NotInTransitionError, None), m3)) /\
  (forall m0, transition m0 = None ->
     Machine_doTransition m0 = ((Some NotInTransitionError, None), m0)).
Proof.
  intros Ht He Hnew Hc Hp Hcan Has dst.
  destruct (Event_flags_new _ _ _ _ _ _ _ _ Ht He Hnew Hc) as [_ H].
  destruct (H Hp Hcan Has) as (Hr & _ & Ht1). fold dst in Ht1.
  split; [done |]. split; [done |]. split; [| apply doTransition_not_pending].
  intros ops Hops.
  destruct (run_pending ops m1 _ Ht1 Hops) as (Ht2 & Hc2 & Hcb2 & Hrs).
  set (m2 := (run ops m1).2) in *. cbv zeta.
  split; [congruence |]. split; [done |]. split; [done |].
  split. { intros. by rewrite Machine_Event_eq, Ht2. }
  assert (callbacks m1 = callbacks m) as Hcb1.
  { revert He. rewrite Machine_Event_eq, Ht. cbv zeta.
    destruct (match transitions m !! _ with None => _ | Some _ => _ end);
      [by intros [= _ <-] |].
    destruct (O_err _); [intros [= _ <-]; by rewrite logged_callbacks |].
    destruct (String.eqb _ _); [intros [= _ <-]; by rewrite !logged_callbacks |].
    destruct (O_err _) as [[]|]; intros [= _ <-]; simpl;
      rewrite ?logged_callbacks; simpl; by rewrite ?logged_callbacks. }
  rewrite (doTransition_pending m2 _ Ht2). cbv zeta. simpl.
  rewrite Hcb2, Hcb1.
  set (n := runChecked _ noCheck (enterKeys _) _).
  set (a := runChecked _ noCheck (afterKeys _) _).
  split; [done |]. rewrite !logged_current. split; [done |]. split; [done |].
  split; [| by apply doTransition_not_pending].
  exists (O_calls n), (O_calls a). rewrite !logged_calls. simpl.
  split; [by rewrite app_assoc |]. split; [apply runChecked_noCheck_keys |].
  unfold a. rewrite runChecked_noCheck_keys. unfold n at 1. by rewrite runChecked_last.
Qed.

(** C5, on [leavingMachine] with a callback that asks for async: the trigger
    of [finish] is deferred; a second trigger and a query later, the resume
    moves the machine to [idle]. *)
Lemma C5_async_protocol_witness :
  let m := leavingMachine Event_Async in
  let m1 := (Machine_Event leavingOrder "finish" [] m).2 in
  let ops := [OpEvent leavingOrder "finish" []; OpCan "finish"] in
  let m3 := (Machine_doTransition (run ops m1).2).2 in
  (Machine_Event leavingOrder "finish" [] m).1 = Some (AsyncError None) /\
  transition m1 = Some (mkPending "idle" (Event_Async (newEvent m "finish" []))) /\
  (run ops m1).1 = [RError (Some (InTransitionError "finish")); RBool false] /\
  current m3 = "idle" /\ transition m3 = None /\
  Machine_doTransition m3 = ((Some NotInTransitionError, None), m3).
Proof.
  cbv zeta.
  pose (m := leavingMachine Event_Async).
  pose (c := mkCall (mk_cKey "scanning" callbackLeaveState)
                    (Event_Async (newEvent m "finish" []))).
  destruct (C5_async_protocol leavingOrder "finish" [] m
              (Machine_Event leavingOrder "finish" [] m).1
              (Machine_Event leavingOrder "finish" [] m).2 [c] c)
    as (Hr & Ht1 & Hops & _);
    [by vm_compute | by vm_compute | by vm_compute | by left | by vm_compute ..|].
  specialize (Hops [OpEvent leavingOrder "finish" []; OpCan "finish"]).
  cbv zeta in Hops.
  destruct Hops as (_ & _ & _ & _ & _ & Hcur & Htr & _ & Hagain);
    [by repeat constructor |].
  split; [exact Hr |]. split; [exact Ht1 |]. split; [by vm_compute |].
  split; [exact Hcur |]. split; [exact Htr |]. exact Hagain.
Defined.

(** ** [NewMachine] *)

Lemma register_values t cbs : forall acc k fn,
  foldl (register t) acc cbs !! k = Some fn -> acc !! k = Some fn \/ fn ∈ cbs.*2.
Proof.
  induction cbs as [|[name f] cbs IH]; intros acc k fn; simpl; [by left |].
  intros [H|H]%IH; [| right; by right].
  unfold register in H. simpl in H. case_bool_decide; [| by left].
  apply lookup_insert_Some in H as [[_ <-]|[_ H]]; [right; by left | by left].
Qed.

(** Every registered callback is one of those given to [NewMachine]. *)
Lemma NewMachine_callbacks initialState events cbs k fn :
  callbacks (NewMachine initialState events cbs) !! k = Some fn -> fn ∈ cbs.*2.
Proof. unfold NewMachine; simpl. by intros [H|H]%register_values. Qed.

(** ** The pending slot along a history *)

(** What a trigger that got past the pending-transition guard leaves in the
    slot. *)
Lemma Event_slot order event args m r m' :
  transition m = None ->
  Machine_Event order event args m = (r, m') ->
  callbacks m' = callbacks m /\
  ((transition m' = None /\ (noAsyncAttached m -> isAsyncError r = false)) \/
   (exists p x, transition m' = Some p /\ r = Some (AsyncError x))).
Proof.
  intros Ht. rewrite Machine_Event_eq, Ht. cbv zeta.
  destruct (match transitions m !! _ with None => _ | Some _ => _ end) as [err|] eqn:Hs.
  { intros [= <- <-]. split; [done |]. left. split; [done |].
    intros _. destruct (transitions m !! _); [done |].
    unfold scan in Hs. destruct order; [done |].
    by destruct (String.eqb _ _); injection Hs as <-. }
  set (b := runChecked _ ifCanceled _ _).
  destruct (O_err b) as [errb|] eqn:Hb.
  { intros [= <- <-]. rewrite logged_callbacks. split; [done |]. left.
    split; [by apply logged_transition_None |]. intros _.
    destruct (runChecked_err _ _ _ _ _ Hb) as (c & _ & _ & Hck).
    by apply ifCanceled_is_canceled in Hck as [-> _]. }
  destruct (String.eqb _ _).
  { intros [= <- <-]. rewrite !logged_callbacks. split; [done |]. left.
    split; [by do 2 apply logged_transition_None | done]. }
  set (l := runChecked _ ifCanceledOrAsync _ _).
  set (ml := logged l _).
  assert (callbacks ml = callbacks m) as Hcb.
  { unfold ml. rewrite logged_callbacks. simpl. by rewrite logged_callbacks. }
  destruct (O_err l) as [errl|] eqn:Hl.
  { destruct (runChecked_err _ _ _ _ _ Hl) as (c & Hc & _ & Hck). fold l in Hc.
    apply ifCanceledOrAsync_cases in Hck as [[-> _]|[-> _]]; intros [= <- <-].
    - split; [done |]. by left.
    - split; [done |]. right.
      assert (is_Some (transition ml)) as [p Hp]; [| by eauto].
      unfold ml. erewrite logged_transition_Some; [by eexists | done]. }
  intros [= <- <-]. simpl. rewrite !logged_callbacks. split; [done |]. left.
  split; [done |]. intros Hno.
  assert (forall ks check e, isAsyncError (Event_Err e) = false ->
            isAsyncError (Event_Err (O_e (runChecked (callbacks m) check ks e))) = false) as Hkeep.
  { intros ks check e. by apply (runChecked_preserves _ _
      (fun e => isAsyncError (Event_Err e) = false)). }
  do 2 apply Hkeep. unfold l. apply Hkeep. unfold b. by apply Hkeep.
Qed.

(** One operation keeps the link between the slot and the history. *)
Lemma step_deferred o m b :
  callbacks (step o m).2 = callbacks m /\
  ((is_Some (transition m) -> b = true) ->
   is_Some (transition (step o m).2) -> deferredStep b o (step o m).1 = true) /\
  (noAsyncAttached m -> (b = true -> is_Some (transition m)) ->
   deferredStep b o (step o m).1 = true -> is_Some (transition (step o m).2)).
Proof.
  destruct o as [| | | | | |order event args|]; try done.
  - simpl. unfold bind, ret.
    destruct (Machine_Event order event args m) as [r m'] eqn:He. simpl.
    destruct (transition m) as [p|] eqn:Ht.
    + rewrite Machine_Event_eq, Ht in He. injection He as <- <-. simpl.
      rewrite Ht. split; [done |]. split; [intros H _; by apply H | done].
    + destruct (Event_slot _ _ _ _ _ _ Ht He) as [Hcb [[Ht' Hna]|(p & x & Ht' & ->)]].
      * split; [done |]. rewrite Ht'. split; [by intros _ [] |].
        intros Hno Hb. rewrite (Hna Hno).
        destruct (isInTransitionError r); [| done].
        intros Hb'. destruct (Hb Hb') as [? [=]].
      * split; [done |]. rewrite Ht'. simpl. split; [done | by eauto].
  - simpl. unfold bind, ret.
    destruct (transition m) as [p|] eqn:Ht.
    + rewrite (doTransition_pending m p Ht). simpl. rewrite !logged_callbacks. simpl.
      split; [done |]. split; [by intros _ [] | done].
    + rewrite (doTransition_not_pending m Ht). simpl. rewrite Ht.
      split; [done |]. split; [by intros _ [] | by intros _ H].
Qed.

Lemma run_deferred ops : forall m b,
  ((is_Some (transition m) -> b = true) ->
   is_Some (transition (run ops m).2) ->
   history deferredStep b ops (run ops m).1 = true) /\
  (noAsyncAttached m -> (b = true -> is_Some (transition m)) ->
   history deferredStep b ops (run ops m).1 = true ->
   is_Some (transition (run ops m).2)).
Proof.
  induction ops as [|o ops IH]; intros m b.
  { simpl. split; [by intros H | by intros _ H]. }
  rewrite run_cons. simpl.
  destruct (step_deferred o m b) as (Hcb & H1 & H2).
  destruct (IH (step o m).2 (deferredStep b o (step o m).1)) as [IH1 IH2].
  split.
  - intros Hb. apply IH1. by apply H1.
  - intros Hno Hb. apply IH2; [| by apply H2].
    intros k fn e. rewrite Hcb. apply Hno.
Qed.

(** C8 (as amended). Along any sequence of operations on a machine made by
    [NewMachine]: a closure is pending only if the last [Event] call that got
    past the pending-transition guard (any call but those that returned
    [InTransitionError]) returned [AsyncError] and no resume has committed
    since; the converse holds when no registered callback puts an
    [AsyncError] into the error field of the context; and on any machine, an
    [Event] call that returns nil, [UnknownEventError], [InvalidEventError],
    [NoTransitionError], [CanceledError] or [InternalError] leaves nothing
    pending. *)
Theorem C8_pending_slot initialState events cbs ops :
  let m0 := NewMachine initialState events cbs in
  (is_Some (transition (run ops m0).2) ->
   history deferredStep false ops (run ops m0).1 = true) /\
  (noAsyncAttached m0 ->
   history deferredStep false ops (run ops m0).1 = true ->
   is_Some (transition (run ops m0).2)) /\
  (forall m order event args,
     settled (Machine_Event order event args m).1 = true ->
     transition (Machine_Event order event args m).2 = None).
Proof.
  cbv zeta. set (m0 := NewMachine initialState events cbs).
  destruct (run_deferred ops m0 false) as [H1 H2].
  split; [apply H1; by intros [] |]. split; [intros Hno; by apply H2 |].
  intros m order event args.
  destruct (Machine_Event order event args m) as [r m'] eqn:He. simpl.
  destruct (transition m) as [p|] eqn:Ht.
  - rewrite Machine_Event_eq, Ht in He. by injection He as <- <-.
  - destruct (Event_slot _ _ _ _ _ _ Ht He) as [_ [[Ht' _]|(p & x & _ & ->)]]; done.
Qed.

(** C8, the claim as stated, fails on [leavingMachine] with a callback that
    asks for async: after a deferred trigger and a second trigger, which is
    turned away, the closure is still pending although the most recent
    [Event] call returned [InTransitionError]. It also fails on the machine
    of the specification's scenario with [attachAsync] as the callback after
    [scan]: the trigger of [scan] goes through and returns the error field,
    an [AsyncError], with nothing pending. *)
Lemma C8_pending_slot_counterexample :
  (let ops := [OpEvent leavingOrder "finish" []; OpEvent leavingOrder "finish" []] in
   let res := run ops (leavingMachine Event_Async) in
   res.1 = [RError (Some (AsyncError None)); RError (Some (InTransitionError "finish"))] /\
   is_Some (transition res.2) /\
   history deferredLiteralStep false ops res.1 = false /\
   ~ (is_Some (transition res.2) <-> history deferredLiteralStep false ops res.1 = true)) /\
  (let ops := [OpEvent scanOrder "scan" []] in
   let res := run ops (scanMachine [("scan", attachAsync)]) in
   res.1 = [RError (Some (AsyncError None))] /\
   current res.2 = "scanning" /\
   transition res.2 = None /\
   history deferredLiteralStep false ops res.1 = true /\
   ~ (is_Some (transition res.2) <-> history deferredLiteralStep false ops res.1 = true)).
Proof.
  split; cbv zeta.
  - split; [by vm_compute |].
    assert (is_Some (transition (run [OpEvent leavingOrder "finish" [];
                                      OpEvent leavingOrder "finish" []]
                                     (leavingMachine Event_Async)).2)) as Hp.
    { vm_compute. by eexists. }
    split; [exact Hp |]. split; [by vm_compute |].
    intros [H _]. specialize (H Hp). by vm_compute in H.
  - split; [by vm_compute |]. split; [by vm_compute |].
    split; [by vm_compute |]. split; [by vm_compute |].
    intros [_ H]. destruct H as [p Hp]; [by vm_compute |]. by vm_compute in Hp.
Qed.

(** C8, on [leavingMachine]: the callback asks for async and leaves the
    error field alone; a deferred trigger, a trigger that is turned away,
    and the resume. *)
Lemma C8_pending_slot_witness :
  let m0 := leavingMachine Event_Async in
  let ops1 := [OpEvent leavingOrder "finish" []; OpEvent leavingOrder "finish" []] in
  let ops2 := (ops1 ++ [OpTransition])%list in
  noAsyncAttached m0 /\
  is_Some (transition (run ops1 m0).2) /\
  history deferredStep false ops1 (run ops1 m0).1 = true /\
  history deferredStep false ops2 (run ops2 m0).1 = false /\
  transition (run ops2 m0).2 = None.
Proof.
  cbv zeta.
  assert (noAsyncAttached (leavingMachine Event_Async)) as Hno.
  { intros k fn e Hk. apply NewMachine_callbacks in Hk.
    simpl in Hk. by apply list_elem_of_singleton in Hk as ->. }
  pose (ops1 := [OpEvent leavingOrder "finish" []; OpEvent leavingOrder "finish" []]).
  destruct (C8_pending_slot "scanning" [mkEventDesc "finish" ["scanning"] "idle"]
              [("leave_scanning", Event_Async)] ops1) as (H1 & H2 & _).
  destruct (C8_pending_slot "scanning" [mkEventDesc "finish" ["scanning"] "idle"]
              [("leave_scanning", Event_Async)] (ops1 ++ [OpTransition])%list)
    as (H3 & _ & H4).
  cbv zeta in H1, H2, H3, H4.
  split; [exact Hno |].
  assert (is_Some (transition (run ops1 (leavingMachine Event_Async)).2)) as Hp.
  { apply (H2 Hno). by vm_compute. }
  split; [exact Hp |]. split; [exact (H1 Hp) |]. split; [by vm_compute |].
  by vm_compute.
Defined.

(** * Further properties of the construction and of the engine *)

(** ** The tables built by [NewMachine] *)

Lemma addSrc_fold e srcs : forall t,
  allEvents (foldl (addSrc e) t srcs) = allEvents t /\
  (forall s, s ∈ allStatus (foldl (addSrc e) t srcs) <->
             s ∈ allStatus t \/ (srcs <> [] /\ (s ∈ srcs \/ s = EventDesc_Dst e))) /\
  (forall name src,
     Tables_transitions (foldl (addSrc e) t srcs) !! mk_eKey name src =
     if decide (EventDesc_Name e = name /\ src ∈ srcs) then Some (EventDesc_Dst e)
     else Tables_transitions t !! mk_eKey name src).
Proof.
  induction srcs as [|x srcs IH]; intros t; simpl.
  - split; [done |]. split.
    + intros s. split; [by left | by intros [|[]]].
    + intros name src. rewrite decide_False; [done |]. intros [_ H]. by apply elem_of_nil in H.
  - destruct (IH (addSrc e t x)) as (IH1 & IH2 & IH3). split; [by rewrite IH1 |]. split.
    + intros s. rewrite IH2. unfold addSrc at 1. simpl. rewrite !elem_of_union, !elem_of_singleton.
      rewrite elem_of_cons. split.
      * intros [[->|[->|H]]|[_ [H| ->]]]; eauto 6.
      * intros [H|[_ [[->|H]| ->]]]; eauto.
        destruct srcs as [|y srcs]; [by apply elem_of_nil in H |]. right. split; [done |]. by left.
    + intros name src. rewrite IH3. unfold addSrc at 1. simpl.
      destruct (decide (EventDesc_Name e = name /\ src ∈ srcs)) as [[Hn Hs]|Hno].
      * rewrite decide_True; [done |]. split; [done | by right].
      * destruct (decide (EventDesc_Name e = name /\ src ∈ x :: srcs)) as [[Hn Hs]|Hno'].
        -- apply elem_of_cons in Hs as [->|Hs]; [| by destruct Hno].
           subst name. by rewrite lookup_insert_eq.
        -- rewrite lookup_insert_ne; [done |]. intros [= Hn Hx]. apply Hno'.
           split; [done |]. subst. by left.
Qed.

Lemma addEvent_fold events : forall t,
  (forall name, name ∈ allEvents (foldl addEvent t events) <->
                name ∈ allEvents t \/ exists e, e ∈ events /\ EventDesc_Name e = name) /\
  (forall s, s ∈ allStatus (foldl addEvent t events) <->
             s ∈ allStatus t \/
             exists e, e ∈ events /\ EventDesc_Src e <> [] /\
                       (s ∈ EventDesc_Src e \/ s = EventDesc_Dst e)) /\
  (forall name src,
     Tables_transitions (foldl addEvent t events) !! mk_eKey name src =
     match last (EventDesc_Dst <$> filter (describes name src) events) with
     | Some dst => Some dst
     | None => Tables_transitions t !! mk_eKey name src
     end).
Proof.
  induction events as [|e events IH]; intros t; simpl.
  - split; [| split]; [| | done]; intros x; (split; [by left |]);
      by intros [|(? & ?%elem_of_nil & _)].
  - destruct (IH (addEvent t e)) as (IH1 & IH2 & IH3).
    destruct (addSrc_fold e (EventDesc_Src e) t) as (A1 & A2 & A3).
    split; [| split].
    + intros name. rewrite IH1. unfold addEvent at 1. simpl.
      rewrite elem_of_union, elem_of_singleton, A1. split.
      * intros [[->|H]|(e' & He' & Hn)]; [right; exists e; split; [by left | done] | by left |].
        right. exists e'. split; [by right | done].
      * intros [H|(e' & [->|He']%elem_of_cons & Hn)]; [by left; right | by left; left |].
        right. by exists e'.
    + intros s. rewrite IH2. unfold addEvent at 1. simpl. rewrite A2. split.
      * intros [[H|H]|(e' & He' & H)]; [by left | right; exists e; split; [by left | done] |].
        right. exists e'. split; [by right | done].
      * intros [H|(e' & [->|He']%elem_of_cons & H)]; [by left; left | by left; right |].
        right. by exists e'.
    + intros name src. rewrite IH3. unfold addEvent at 1. simpl. rewrite A3.
      destruct (decide (describes name src e)) as [Hd|Hd].
      * rewrite filter_cons_True by done. rewrite fmap_cons.
        rewrite decide_True by done.
        destruct (filter (describes name src) events) as [|e' l]; simpl; [done |].
        destruct (last (_ :: _)) eqn:E; [done |].
        by apply last_None in E.
      * rewrite filter_cons_False by done. by rewrite decide_False.
Qed.

Lemma transitions_lookup initialState events cbs name src :
  transitions (NewMachine initialState events cbs) !! mk_eKey name src =
  last (EventDesc_Dst <$> filter (describes name src) events).
Proof.
  unfold NewMachine; simpl. unfold buildTables.
  destruct (addEvent_fold events (mkTables ∅ ∅ ∅)) as (_ & _ & H).
  rewrite H. simpl. by destruct (last _).
Qed.

(** X1. The transition table of a new machine: the destination stored for
    an event and a source state is the one of the last descriptor, in the
    order given, that has this name and lists this source; with no such
    descriptor the key is absent. Neither the initial state nor the
    callbacks matter. *)
Theorem NewMachine_transitions initialState events cbs name src :
  transitions (NewMachine initialState events cbs) !! mk_eKey name src =
  last (EventDesc_Dst <$> filter (describes name src) events).
Proof. apply transitions_lookup. Qed.

Lemma known_names events :
  (forall name, name ∈ allEvents (buildTables events) <->
                exists e, e ∈ events /\ EventDesc_Name e = name) /\
  (forall s, s ∈ allStatus (buildTables events) <->
             exists e, e ∈ events /\ EventDesc_Src e <> [] /\
                       (s ∈ EventDesc_Src e \/ s = EventDesc_Dst e)).
Proof.
  unfold buildTables.
  destruct (addEvent_fold events (mkTables ∅ ∅ ∅)) as (H1 & H2 & _).
  split.
  - intros name. rewrite H1. simpl. split; [by intros [?%not_elem_of_empty|] | by right].
  - intros s. rewrite H2. simpl. split; [by intros [?%not_elem_of_empty|] | by right].
Qed.

(** X2. The names [NewMachine] takes as known when it resolves callbacks:
    an event name is known when some descriptor has it; a state is known when
    it is a source of some descriptor, or the destination of a descriptor
    that has at least one source. The destination of a descriptor without
    sources is not known by that descriptor. *)
Theorem buildTables_known events :
  (forall name, name ∈ allEvents (buildTables events) <->
                exists e, e ∈ events /\ EventDesc_Name e = name) /\
  (forall s, s ∈ allStatus (buildTables events) <->
             exists e, e ∈ events /\ EventDesc_Src e <> [] /\
                       (s ∈ EventDesc_Src e \/ s = EventDesc_Dst e)).
Proof. apply known_names. Qed.

(** ** The registry built by [NewMachine] *)

Lemma register_fold t cbs : forall acc k,
  foldl (register t) acc cbs !! k =
  match (if decide (cKey_callbackType k = callbackNone) then None
         else last (snd <$> filter (fun nc => resolve t nc.1 = k) cbs)) with
  | Some fn => Some fn
  | None => acc !! k
  end.
Proof.
  induction cbs as [|[name f] cbs IH]; intros acc k; simpl.
  - by destruct (decide _).
  - rewrite IH. unfold register at 1. simpl.
    destruct (decide (cKey_callbackType k = callbackNone)) as [Hk|Hk].
    + case_bool_decide; [| done]. rewrite lookup_insert_ne; [done |]. congruence.
    + destruct (decide (resolve t name = k)) as [Hr|Hr].
      * rewrite filter_cons_True by done. rewrite fmap_cons.
        destruct (filter _ cbs) as [|nc l]; simpl.
        -- rewrite bool_decide_true by congruence. subst k. by rewrite lookup_insert_eq.
        -- destruct (last (_ :: _)) eqn:E; [done |]. by apply last_None in E.
      * rewrite filter_cons_False by done.
        destruct (last _); [done |].
        case_bool_decide; [| done]. by rewrite lookup_insert_ne.
Qed.

Lemma registry_lookup initialState events cbs k :
  callbacks (NewMachine initialState events cbs) !! k =
  if decide (cKey_callbackType k = callbackNone) then None
  else last (snd <$> filter (fun nc => resolve (buildTables events) nc.1 = k) cbs).
Proof.
  unfold NewMachine; simpl. rewrite register_fold.
  by destruct (if decide _ then _ else _).
Qed.

(** X3. The registry of a new machine: under a key, with [callbacks] in
    the order the [range] visits the map, is the callback of the last name
    that resolves to this key; a key of type [callbackNone] is never there,
    and a key no name resolves to is absent. *)
Theorem NewMachine_registry initialState events cbs k :
  callbacks (NewMachine initialState events cbs) !! k =
  if decide (cKey_callbackType k = callbackNone) then None
  else last (snd <$> filter (fun nc => resolve (buildTables events) nc.1 = k) cbs).
Proof. apply registry_lookup. Qed.

Lemma resolve_known t name :
  match cKey_callbackType (resolve t name) with
  | callbackNone => True
  | callbackBeforeEvent | callbackAfterEvent =>
      cKey_target (resolve t name) = "event" \/ cKey_target (resolve t name) ∈ allEvents t
  | callbackLeaveState | callbackEnterState =>
      cKey_target (resolve t name) = "state" \/ cKey_target (resolve t name) ∈ allStatus t
  end.
Proof.
  unfold resolve.
  repeat (destruct (HasPrefix name _));
    repeat (first [ match goal with
                    | |- context [String.eqb ?a ?b] => destruct (String.eqb_spec a b)
                    end
                  | case_bool_decide ]);
    simpl; auto.
Qed.

(** X4. What can be in the registry of a new machine. A registered callback
    was given under a name that resolves to its key. A before-event or
    after-event key has the target [event] or the name of some descriptor; a
    leave-state or enter-state key has the target [state], or a source of
    some descriptor, or the destination of a descriptor with a source. So a
    callback is under the empty target, the one the engine looks up as the
    wildcard, only when the empty string is itself such a name or state. *)
Theorem NewMachine_registered initialState events cbs k fn :
  callbacks (NewMachine initialState events cbs) !! k = Some fn ->
  (exists name, (name, fn) ∈ cbs /\ resolve (buildTables events) name = k) /\
  match cKey_callbackType k with
  | callbackNone => False
  | callbackBeforeEvent | callbackAfterEvent =>
      cKey_target k = "event" \/
      exists e, e ∈ events /\ EventDesc_Name e = cKey_target k
  | callbackLeaveState | callbackEnterState =>
      cKey_target k = "state" \/
      exists e, e ∈ events /\ EventDesc_Src e <> [] /\
                (cKey_target k ∈ EventDesc_Src e \/ cKey_target k = EventDesc_Dst e)
  end /\
  (cKey_target k = "" ->
   exists e, e ∈ events /\
     (EventDesc_Name e = "" \/
      (EventDesc_Src e <> [] /\ ("" ∈ EventDesc_Src e \/ EventDesc_Dst e = "")))).
Proof.
  rewrite registry_lookup.
  destruct (decide (cKey_callbackType k = callbackNone)) as [|Hk]; [done |].
  intros Hl. apply last_Some in Hl as [l Hl].
  assert ((fn : Callback) ∈ (snd <$> filter (fun nc => resolve (buildTables events) nc.1 = k) cbs))
    as Hin by (rewrite Hl; apply elem_of_app; right; by left).
  apply list_elem_of_fmap in Hin as ([name f] & -> & [Hr Hin]%list_elem_of_filter).
  simpl in *.
  assert (match cKey_callbackType k with
          | callbackNone => False
          | callbackBeforeEvent | callbackAfterEvent =>
              cKey_target k = "event" \/
              exists e, e ∈ events /\ EventDesc_Name e = cKey_target k
          | callbackLeaveState | callbackEnterState =>
              cKey_target k = "state" \/
              exists e, e ∈ events /\ EventDesc_Src e <> [] /\
                        (cKey_target k ∈ EventDesc_Src e \/ cKey_target k = EventDesc_Dst e)
          end) as Hkey.
  { pose proof (resolve_known (buildTables events) name) as H. rewrite Hr in H.
    destruct (known_names events) as [H1 H2].
    destruct (cKey_callbackType k); [done | | | |];
      (destruct H as [H|H]; [by left | right]); by first [apply H1 | apply H2]. }
  split; [by exists name |]. split; [exact Hkey |].
  intros Ht. rewrite Ht in Hkey.
  destruct (cKey_callbackType k); [done | | | |];
    destruct Hkey as [[=]|(e & He & H)]; exists e; (split; [done |]); auto.
  - right. destruct H as (? & [?|?]); auto.
  - right. destruct H as (? & [?|?]); auto.
Qed.

(** X4, on the machine of the specification's scenario with a callback
    given as [scan]. *)
Lemma NewMachine_registered_witness :
  let k := mk_cKey "scan" callbackAfterEvent in
  callbacks (scanMachine [("scan", attachAsync)]) !! k = Some attachAsync /\
  (exists name, (name, attachAsync) ∈ [("scan", attachAsync)] /\
     resolve (buildTables [mkEventDesc "scan" ["idle"] "scanning";
                           mkEventDesc "finish" ["scanning"] "idle"]) name = k).
Proof.
  cbv zeta.
  assert (callbacks (scanMachine [("scan", attachAsync)]) !! mk_cKey "scan" callbackAfterEvent
          = Some attachAsync) as H by (by vm_compute).
  split; [exact H |].
  exact (proj1 (NewMachine_registered _ _ _ _ _ H)).
Defined.

(** ** [strings.Trim] on a prefixed name *)

Lemma inCutset_elem_of cutset c :
  inCutset cutset c = true <-> c ∈ list_ascii_of_string cutset.
Proof.
  unfold inCutset. rewrite existsb_exists. split.
  - intros (x & Hx%list_elem_of_In & ->%Ascii.eqb_eq). done.
  - intros H. exists c. split; [by apply list_elem_of_In | apply Ascii.eqb_refl].
Qed.

Lemma list_ascii_of_string_app s1 s2 :
  list_ascii_of_string (s1 ++ s2) = (list_ascii_of_string s1 ++ list_ascii_of_string s2)%list.
Proof. induction s1 as [|c s1 IH]; simpl; [done | by rewrite IH]. Qed.

Lemma trimLeft_head cutset l :
  match trimLeft cutset l with
  | [] => True
  | c :: _ => inCutset cutset c = false
  end.
Proof.
  induction l as [|c l IH]; simpl; [done |].
  by destruct (inCutset cutset c) eqn:E.
Qed.

Lemma trimLeft_suffix cutset l : exists p, l = (p ++ trimLeft cutset l)%list.
Proof.
  induction l as [|c l [p IH]]; simpl; [by exists [] |].
  destruct (inCutset cutset c); [| by exists []].
  exists (c :: p). simpl. by rewrite <- IH.
Qed.

Lemma trimLeft_all cutset p l :
  Forall (fun c => inCutset cutset c = true) p ->
  trimLeft cutset (p ++ l) = trimLeft cutset l.
Proof. induction 1 as [|c p Hc _ IH]; simpl; [done | by rewrite Hc]. Qed.

Lemma trimLeft_keeps cutset l :
  match l with [] => True | c :: _ => inCutset cutset c = false end ->
  trimLeft cutset l = l.
Proof. destruct l as [|c l]; simpl; [done | by intros ->]. Qed.

Lemma rev_is_reverse {A} (l : list A) : rev l = reverse l.
Proof. unfold reverse. apply rev_alt. Qed.

Lemma trimRight_last cutset l :
  match last (trimRight cutset l) with
  | None => True
  | Some c => inCutset cutset c = false
  end.
Proof.
  unfold trimRight. rewrite rev_is_reverse, last_reverse.
  pose proof (trimLeft_head cutset (rev l)) as H.
  by destruct (trimLeft cutset (rev l)).
Qed.

Lemma trimRight_keeps cutset l :
  match last l with None => True | Some c => inCutset cutset c = false end ->
  trimRight cutset l = l.
Proof.
  intros H. unfold trimRight. rewrite trimLeft_keeps.
  - by rewrite !rev_is_reverse, reverse_involutive.
  - rewrite rev_is_reverse. rewrite <- head_reverse in H.
    by destruct (reverse l).
Qed.

Lemma trimRight_all cutset p :
  Forall (fun c => inCutset cutset c = true) p -> trimRight cutset p = [].
Proof.
  intros H. unfold trimRight.
  rewrite <- (app_nil_r (rev p)), trimLeft_all; [done |].
  rewrite rev_is_reverse. by apply Forall_reverse.
Qed.

(** What [Trim] returns neither begins nor ends with a character of the
    cutset. *)
Lemma Trim_untrimmed s cutset : untrimmed cutset (Trim s cutset) = true.
Proof.
  unfold untrimmed, Trim. rewrite list_ascii_of_string_of_list_ascii.
  set (l := trimRight cutset (list_ascii_of_string s)).
  pose proof (trimLeft_head cutset l) as Hh.
  pose proof (trimRight_last cutset (list_ascii_of_string s)) as Hl. fold l in Hl.
  destruct (trimLeft_suffix cutset l) as [p Hp].
  destruct (trimLeft cutset l) as [|c l'] eqn:E; [done |].
  rewrite Hh. simpl.
  rewrite Hp, last_app in Hl.
  destruct (last (c :: l')) eqn:E'; [by rewrite Hl | done].
Qed.

(** Trimming a name made of a prefix and a rest, with the prefix as the
    cutset, gives the rest exactly when the rest neither begins nor ends
    with a character of the prefix. *)
Lemma Trim_prefix pre x : Trim (pre ++ x) pre = x <-> untrimmed pre x = true.
Proof.
  split; [intros <-; apply Trim_untrimmed |].
  unfold untrimmed, Trim. rewrite list_ascii_of_string_app.
  set (p := list_ascii_of_string pre).
  assert (Forall (fun c => inCutset pre c = true) p) as Hp.
  { apply Forall_forall. intros c Hc. by apply inCutset_elem_of. }
  intros H.
  enough (trimLeft pre (trimRight pre (p ++ list_ascii_of_string x)) = list_ascii_of_string x)
    as -> by apply string_of_list_ascii_of_string.
  destruct (list_ascii_of_string x) as [|c l] eqn:E.
  - rewrite app_nil_r, trimRight_all by done. done.
  - apply andb_true_iff in H as [Hh Hl]. apply negb_true_iff in Hh.
    rewrite trimRight_keeps.
    + rewrite trimLeft_all by done. simpl. by rewrite Hh.
    + rewrite last_app. destruct (last (c :: l)) eqn:E'.
      * by apply negb_true_iff in Hl.
      * by apply last_None in E'.
Qed.

Lemma HasPrefix_app pre x : HasPrefix (pre ++ x) pre = true.
Proof.
  unfold HasPrefix. induction pre as [|a pre IH]; simpl; [by destruct x |].
  by destruct (ascii_dec a a).
Qed.

(** The branch of the [switch] a prefixed name takes. *)
Lemma resolve_branch t x :
  resolve t ("before_" ++ x) =
    (let target := Trim ("before_" ++ x) "before_" in
     if String.eqb target "event" then mk_cKey target callbackBeforeEvent
     else if bool_decide (target ∈ allEvents t) then mk_cKey target callbackBeforeEvent
     else mk_cKey target callbackNone) /\
  resolve t ("leave_" ++ x) =
    (let target := Trim ("leave_" ++ x) "leave_" in
     if String.eqb target "state" then mk_cKey target callbackLeaveState
     else if bool_decide (target ∈ allStatus t) then mk_cKey target callbackLeaveState
     else mk_cKey target callbackNone) /\
  resolve t ("enter_" ++ x) =
    (let target := Trim ("enter_" ++ x) "enter_" in
     if String.eqb target "state" then mk_cKey target callbackEnterState
     else if bool_decide (target ∈ allStatus t) then mk_cKey target callbackEnterState
     else mk_cKey target callbackNone) /\
  resolve t ("after_" ++ x) =
    (let target := Trim ("after_" ++ x) "after_" in
     if String.eqb target "event" then mk_cKey target callbackAfterEvent
     else if bool_decide (target ∈ allEvents t) then mk_cKey target callbackAfterEvent
     else mk_cKey target callbackNone).
Proof.
  unfold resolve.
  rewrite (HasPrefix_app "before_" x).
  assert (HasPrefix ("leave_" ++ x) "before_" = false) as -> by (by vm_compute).
  rewrite (HasPrefix_app "leave_" x).
  assert (HasPrefix ("enter_" ++ x) "before_" = false) as -> by (by vm_compute).
  assert (HasPrefix ("enter_" ++ x) "leave_" = false) as -> by (by vm_compute).
  rewrite (HasPrefix_app "enter_" x).
  assert (HasPrefix ("after_" ++ x) "before_" = false) as -> by (by vm_compute).
  assert (HasPrefix ("after_" ++ x) "leave_" = false) as -> by (by vm_compute).
  assert (HasPrefix ("after_" ++ x) "enter_" = false) as -> by (by vm_compute).
  rewrite (HasPrefix_app "after_" x).
  done.
Qed.

Lemma resolved_target (target lit : string) (b : bool) (ph : callbackType) :
  cKey_target (if String.eqb target lit then mk_cKey target ph
               else if b then mk_cKey target ph else mk_cKey target callbackNone) = target.
Proof. destruct (String.eqb target lit); [done |]. by destruct b. Qed.

Lemma resolved_type (x lit : string) (b : bool) (ph : callbackType) :
  x <> lit ->
  cKey_callbackType (if String.eqb x lit then mk_cKey x ph
                     else if b then mk_cKey x ph else mk_cKey x callbackNone) =
  if b then ph else callbackNone.
Proof. intros H. destruct (String.eqb_spec x lit); [done |]. by destruct b. Qed.

(** X5. A callback name made of a recognised prefix and a rest [x]. The
    target [NewMachine] resolves it to is [x] exactly when [x] neither begins
    nor ends with a character that occurs in the prefix; in that case the
    callback is registered for [x] in the phase of the prefix when [x] is a
    known event (for [before_] and [after_]) or a known state (for [leave_]
    and [enter_]), and dropped otherwise. *)
Theorem resolve_prefixed t x :
  ((cKey_target (resolve t ("before_" ++ x)) = x <-> untrimmed "before_" x = true) /\
   (untrimmed "before_" x = true ->
    cKey_callbackType (resolve t ("before_" ++ x)) =
    if bool_decide (x ∈ allEvents t) then callbackBeforeEvent else callbackNone)) /\
  ((cKey_target (resolve t ("leave_" ++ x)) = x <-> untrimmed "leave_" x = true) /\
   (untrimmed "leave_" x = true ->
    cKey_callbackType (resolve t ("leave_" ++ x)) =
    if bool_decide (x ∈ allStatus t) then callbackLeaveState else callbackNone)) /\
  ((cKey_target (resolve t ("enter_" ++ x)) = x <-> untrimmed "enter_" x = true) /\
   (untrimmed "enter_" x = true ->
    cKey_callbackType (resolve t ("enter_" ++ x)) =
    if bool_decide (x ∈ allStatus t) then callbackEnterState else callbackNone)) /\
  ((cKey_target (resolve t ("after_" ++ x)) = x <-> untrimmed "after_" x = true) /\
   (untrimmed "after_" x = true ->
    cKey_callbackType (resolve t ("after_" ++ x)) =
    if bool_decide (x ∈ allEvents t) then callbackAfterEvent else callbackNone)).
Proof.
  destruct (resolve_branch t x) as (-> & -> & -> & ->). cbv zeta.
  rewrite !resolved_target.
  repeat split; try apply Trim_prefix.
  all: intros H; rewrite (proj2 (Trim_prefix _ x) H); apply resolved_type;
    intros ->; by vm_compute in H.
Qed.

(** X5, for the name [before_scan] on the tables of the specification's
    scenario. *)
Lemma resolve_prefixed_witness :
  let t := buildTables [mkEventDesc "scan" ["idle"] "scanning";
                        mkEventDesc "finish" ["scanning"] "idle"] in
  untrimmed "before_" "scan" = true /\
  cKey_target (resolve t "before_scan") = "scan" /\
  cKey_callbackType (resolve t "before_scan") = callbackBeforeEvent.
Proof.
  cbv zeta.
  destruct (resolve_prefixed
              (buildTables [mkEventDesc "scan" ["idle"] "scanning";
                            mkEventDesc "finish" ["scanning"] "idle"]) "scan")
    as ((Ht & Hty) & _).
  split; [by vm_compute |]. split; [apply Ht; by vm_compute |].
  change "before_scan" with ("before_" ++ "scan"). rewrite Hty; by vm_compute.
Defined.

(** ** What the operations leave alone *)

Lemma logged_transitions o m : transitions (logged o m) = transitions m.
Proof. unfold logged. by destruct (O_calls o). Qed.

Lemma runChecked_cons cbs check k ks e :
  runChecked cbs check (k :: ks) e =
  match cbs !! k with
  | None => runChecked cbs check ks e
  | Some fn =>
      match check (fn e) with
      | Some err => mkOutcome [mkCall k (fn e)] (fn e) (Some err)
      | None =>
          mkOutcome (mkCall k (fn e) :: O_calls (runChecked cbs check ks (fn e)))
                    (O_e (runChecked cbs check ks (fn e)))
                    (O_err (runChecked cbs check ks (fn e)))
      end
  end.
Proof. done. Qed.

Lemma runChecked_length cbs check ks e :
  length (O_calls (runChecked cbs check ks e)) <= length ks.
Proof.
  revert e. induction ks as [|k ks IH]; intros e; [done |].
  rewrite runChecked_cons. destruct (cbs !! k) as [fn|].
  - destruct (check (fn e)); simpl; [lia |]. specialize (IH (fn e)). lia.
  - specialize (IH e). simpl. lia.
Qed.

Lemma runChecked_registered cbs check ks e :
  Forall (fun c => is_Some (cbs !! Call_key c)) (O_calls (runChecked cbs check ks e)).
Proof. apply Forall_forall. intros c Hc. by apply runChecked_keys in Hc as [_ ?]. Qed.

(** A run that returns no error has called every registered key. *)
Lemma runChecked_ok_keys cbs check ks e :
  O_err (runChecked cbs check ks e) = None ->
  Call_key <$> O_calls (runChecked cbs check ks e) =
  filter (fun k => is_Some (cbs !! k)) ks.
Proof.
  revert e. induction ks as [|k ks IH]; intros e; [done |].
  rewrite runChecked_cons. destruct (cbs !! k) as [fn|] eqn:Hk.
  - rewrite filter_cons_True by (by rewrite Hk).
    destruct (check (fn e)); simpl; [done |]. intros H. by rewrite IH.
  - rewrite filter_cons_False by (rewrite Hk; by intros [? ?]). apply IH.
Qed.

(** The calls of a trigger: at most eight, each for a registered key; the
    tables are as before. *)
Lemma Event_frame order event args m r m' :
  Machine_Event order event args m = (r, m') ->
  transitions m' = transitions m /\ callbacks m' = callbacks m /\
  exists new, calls m' = (calls m ++ new)%list /\ length new <= 8 /\
              Forall (fun c => is_Some (callbacks m !! Call_key c)) new.
Proof.
  rewrite Machine_Event_eq.
  assert (exists new, calls m = (calls m ++ new)%list /\ length new <= 8 /\
            Forall (fun c => is_Some (callbacks m !! Call_key c)) new) as Hnil.
  { exists []. rewrite app_nil_r. repeat split; [simpl; lia | constructor]. }
  destruct (transition m) as [p|] eqn:Ht; [by intros [= <- <-] |].
  cbv zeta.
  destruct (match transitions m !! _ with None => _ | Some _ => _ end);
    [by intros [= <- <-] |].
  set (dst := default "" _).
  set (b := runChecked _ ifCanceled _ _).
  pose proof (runChecked_length (callbacks m) ifCanceled (beforeKeys (current m))
                (newEvent m event args)) as Lb. fold b in Lb.
  pose proof (runChecked_registered (callbacks m) ifCanceled (beforeKeys (current m))
                (newEvent m event args)) as Rb. fold b in Rb.
  simpl in Lb.
  destruct (O_err b).
  { intros [= <- <-]. rewrite logged_transitions, logged_callbacks, logged_calls.
    do 2 (split; [done |]). exists (O_calls b). repeat split; [lia | done]. }
  destruct (String.eqb _ _).
  { set (a := runChecked _ noCheck _ _).
    pose proof (runChecked_length (callbacks m) noCheck (afterKeys (Event_Event (O_e b)))
                  (O_e b)) as La. fold a in La. simpl in La.
    pose proof (runChecked_registered (callbacks m) noCheck
                  (afterKeys (Event_Event (O_e b))) (O_e b)) as Ra. fold a in Ra.
    intros [= <- <-]. rewrite !logged_transitions, !logged_callbacks, !logged_calls.
    do 2 (split; [done |]). exists (O_calls b ++ O_calls a)%list.
    rewrite app_assoc, length_app. repeat split; [lia | by apply Forall_app]. }
  set (l := runChecked _ ifCanceledOrAsync _ _).
  pose proof (runChecked_length (callbacks m) ifCanceledOrAsync (leaveKeys (current m))
                (O_e b)) as Ll. fold l in Ll. simpl in Ll.
  pose proof (runChecked_registered (callbacks m) ifCanceledOrAsync (leaveKeys (current m))
                (O_e b)) as Rl. fold l in Rl.
  set (ml := logged l _).
  assert (transitions ml = transitions m /\ callbacks ml = callbacks m /\
          calls ml = (calls m ++ (O_calls b ++ O_calls l))%list) as (Tml & Cml & Lml).
  { unfold ml. rewrite logged_transitions, logged_callbacks, logged_calls. simpl.
    by rewrite logged_transitions, logged_callbacks, logged_calls, app_assoc. }
  destruct (O_err l) as [errl|].
  { intros Heq.
    assert (transitions m' = transitions m /\ callbacks m' = callbacks m /\
            calls m' = (calls m ++ (O_calls b ++ O_calls l))%list) as (? & ? & ?)
      by (destruct errl; injection Heq as <- <-; done).
    do 2 (split; [done |]). exists (O_calls b ++ O_calls l)%list.
    rewrite length_app. repeat split; [done | lia | by apply Forall_app]. }
  set (n := runChecked _ noCheck (enterKeys _) _).
  set (a := runChecked _ noCheck (afterKeys _) _).
  pose proof (runChecked_length (callbacks m) noCheck (enterKeys dst) (O_e l)) as Ln.
  fold n in Ln. simpl in Ln.
  pose proof (runChecked_registered (callbacks m) noCheck (enterKeys dst) (O_e l)) as Rn.
  fold n in Rn.
  pose proof (runChecked_length (callbacks m) noCheck (afterKeys (Event_Event (O_e n)))
                (O_e n)) as La. fold a in La. simpl in La.
  pose proof (runChecked_registered (callbacks m) noCheck (afterKeys (Event_Event (O_e n)))
                (O_e n)) as Ra. fold a in Ra.
  intros [= <- <-]. simpl.
  rewrite !logged_transitions, !logged_callbacks, !logged_calls. simpl.
  rewrite Tml, Cml, Lml. do 2 (split; [done |]).
  exists (O_calls b ++ O_calls l ++ O_calls n ++ O_calls a)%list.
  rewrite <- !app_assoc, !length_app.
  split; [done |]. split; [lia |]. rewrite !Forall_app. done.
Qed.

Lemma step_frame o m :
  transitions (step o m).2 = transitions m /\ callbacks (step o m).2 = callbacks m /\
  exists new, calls (step o m).2 = (calls m ++ new)%list /\ length new <= 8 /\
              Forall (fun c => is_Some (callbacks m !! Call_key c)) new.
Proof.
  assert (exists new, calls m = (calls m ++ new)%list /\ length new <= 8 /\
            Forall (fun c => is_Some (callbacks m !! Call_key c)) new) as Hnil.
  { exists []. rewrite app_nil_r. repeat split; [simpl; lia | constructor]. }
  destruct o as [| | | | | |order event args|]; try done.
  - simpl. unfold bind, ret.
    destruct (Machine_Event order event args m) as [r m'] eqn:He. simpl.
    by apply Event_frame in He.
  - simpl. unfold bind, ret.
    destruct (transition m) as [p|] eqn:Ht.
    + rewrite (doTransition_pending m p Ht). simpl.
      set (n := runChecked _ noCheck (enterKeys _) _).
      set (a := runChecked _ noCheck (afterKeys _) _).
      rewrite !logged_transitions, !logged_callbacks, !logged_calls. simpl.
      do 2 (split; [done |]). exists (O_calls n ++ O_calls a)%list.
      pose proof (runChecked_length (callbacks m) noCheck (enterKeys (Pending_dst p))
                    (Pending_e p)) as Ln. fold n in Ln. simpl in Ln.
      pose proof (runChecked_length (callbacks m) noCheck (afterKeys (Event_Event (O_e n)))
                    (O_e n)) as La. fold a in La. simpl in La.
      rewrite app_assoc, length_app. repeat split; [lia |].
      apply Forall_app. split; apply runChecked_registered.
    + by rewrite (doTransition_not_pending m Ht).
Qed.

(** X6. Along any sequence of operations the transition table and the
    registry stay as they are; the log of calls only grows, by at most eight
    calls for each operation; and every call made is for a key that is in the
    registry. *)
Theorem run_frame ops : forall m,
  transitions (run ops m).2 = transitions m /\
  callbacks (run ops m).2 = callbacks m /\
  exists new, calls (run ops m).2 = (calls m ++ new)%list /\
              length new <= 8 * length ops /\
              Forall (fun c => is_Some (callbacks m !! Call_key c)) new.
Proof.
  induction ops as [|o ops IH]; intros m.
  { simpl. do 2 (split; [done |]). exists []. rewrite app_nil_r.
    repeat split; [simpl; lia | constructor]. }
  rewrite run_cons. simpl.
  destruct (step_frame o m) as (T1 & C1 & new1 & L1 & N1 & R1).
  destruct (IH (step o m).2) as (T2 & C2 & new2 & L2 & N2 & R2).
  split; [congruence |]. split; [congruence |].
  exists (new1 ++ new2)%list. rewrite L2, L1, <- app_assoc, length_app.
  repeat split; [lia |]. apply Forall_app. split; [done |]. by rewrite <- C1.
Qed.

(** ** A trigger that commits *)

(** X7. A trigger of an event with a table entry whose destination is not
    the current state, on a machine with nothing pending, in which no
    before-event or leave-state call leaves the cancel flag set and no
    leave-state call leaves the async flag set. The machine ends in the
    destination of the table, whatever the callbacks wrote into the
    destination field of the context, with nothing pending. The calls are, in
    this order: the registered before-event callbacks for the current state
    and for the empty target, the registered leave-state callbacks for the
    current state and for the empty target, the registered enter-state
    callbacks for the destination and for the empty target, and the
    registered after-event callbacks for the event field of the context and
    for the empty target. The result is the error field of the context as
    the last call left it, nil if there was no call. *)
Theorem Event_commits order event args m dst r m' new :
  transition m = None ->
  transitions m !! mk_eKey event (current m) = Some dst ->
  current m <> dst ->
  Machine_Event order event args m = (r, m') ->
  calls m' = (calls m ++ new)%list ->
  (forall c, c ∈ new ->
     phase c = callbackBeforeEvent \/ phase c = callbackLeaveState ->
     Event_canceled (Call_after c) = false) ->
  (forall c, c ∈ new -> phase c = callbackLeaveState ->
     Event_async (Call_after c) = false) ->
  current m' = dst /\ transition m' = None /\
  r = Event_Err (default (newEvent m event args) (Call_after <$> last new)) /\
  exists b l n a,
    new = (b ++ l ++ n ++ a)%list /\
    Call_key <$> b = filter (fun k => is_Some (callbacks m !! k)) (beforeKeys (current m)) /\
    Call_key <$> l = filter (fun k => is_Some (callbacks m !! k)) (leaveKeys (current m)) /\
    Call_key <$> n = filter (fun k => is_Some (callbacks m !! k)) (enterKeys dst) /\
    Call_key <$> a =
      filter (fun k => is_Some (callbacks m !! k))
             (afterKeys (Event_Event
                (default (newEvent m event args) (Call_after <$> last (b ++ l ++ n))))).
Proof.
  intros Ht Hfound Hne. rewrite Machine_Event_eq, Ht. cbv zeta.
  rewrite Hfound. simpl.
  set (e0 := newEvent m event args).
  set (b := runChecked _ ifCanceled _ _).
  assert (forall c, c ∈ O_calls b -> phase c = callbackBeforeEvent) as Hpb.
  { intros c. apply runChecked_phase. auto with phases. }
  destruct (O_err b) as [errb|] eqn:Hb.
  { intros [= <- <-]. rewrite logged_calls. intros <-%app_inv_head Hcan _.
    destruct (runChecked_err _ _ _ _ _ Hb) as (c & Hc & _ & Hck). fold b in Hc.
    apply ifCanceled_is_canceled in Hck as [_ Hck].
    rewrite (Hcan c Hc) in Hck; [done |]. left. by apply Hpb. }
  destruct (String.eqb_spec (current m) dst) as [|_]; [done |].
  set (l := runChecked _ ifCanceledOrAsync _ _).
  set (ml := logged l _).
  assert (forall c, c ∈ O_calls l -> phase c = callbackLeaveState) as Hpl.
  { intros c. apply runChecked_phase. auto with phases. }
  assert (calls ml = (calls m ++ (O_calls b ++ O_calls l))%list) as Hcalls.
  { unfold ml. rewrite logged_calls. simpl. by rewrite logged_calls, app_assoc. }
  destruct (O_err l) as [errl|] eqn:Hl.
  { intros Heq.
    assert (calls m' = calls ml) as Hm' by (destruct errl; injection Heq as <- <-; done).
    rewrite Hm', Hcalls. intros <-%app_inv_head Hcan Has.
    destruct (runChecked_err _ _ _ _ _ Hl) as (c & Hc & _ & Hck). fold l in Hc.
    assert (c ∈ (O_calls b ++ O_calls l)%list) as Hin by (apply elem_of_app; by right).
    apply ifCanceledOrAsync_cases in Hck as [[_ Hck]|(_ & _ & Hck)].
    - rewrite (Hcan c Hin) in Hck; [done |]. right. by apply Hpl.
    - rewrite (Has c Hin) in Hck; [done |]. by apply Hpl. }
  set (n := runChecked _ noCheck (enterKeys _) _).
  set (a := runChecked _ noCheck (afterKeys _) _).
  intros [= <- <-]. simpl. rewrite !logged_calls. simpl. rewrite Hcalls.
  rewrite <- !app_assoc. intros <-%app_inv_head _ _.
  rewrite !logged_current. simpl.
  assert (O_e n = default e0 (Call_after <$> last (O_calls b ++ O_calls l ++ O_calls n)))
    as Hen.
  { unfold n at 1. rewrite runChecked_last. fold n.
    unfold l at 1. rewrite runChecked_last. fold l.
    unfold b at 1. rewrite runChecked_last. fold b.
    by rewrite !last_app_default. }
  split; [done |]. split; [done |]. split.
  { unfold a at 1. rewrite runChecked_last. fold a. rewrite Hen.
    rewrite last_app_default. by rewrite <- !app_assoc. }
  exists (O_calls b), (O_calls l), (O_calls n), (O_calls a).
  split; [done |].
  split; [by apply runChecked_ok_keys |].
  split; [by apply runChecked_ok_keys |].
  split; [apply runChecked_noCheck_keys |].
  rewrite <- Hen. apply runChecked_noCheck_keys.
Qed.

(** X7, on [liftMachine]: the trigger of [go] from [up] calls the callback
    given as [before_up], found under the current state, then the ones for
    leaving [up], for entering [down] and after [go], and returns the error
    the last one attached. *)
Lemma Event_commits_witness :
  let res := Machine_Event liftOrder "go" [] liftMachine in
  res.1 = Some (UserError "after") /\ current res.2 = "down" /\ transition res.2 = None /\
  Call_key <$> calls res.2 =
    [mk_cKey "up" callbackBeforeEvent; mk_cKey "up" callbackLeaveState;
     mk_cKey "down" callbackEnterState; mk_cKey "go" callbackAfterEvent].
Proof.
  cbv zeta.
  destruct (Event_commits liftOrder "go" [] liftMachine "down"
              (Machine_Event liftOrder "go" [] liftMachine).1
              (Machine_Event liftOrder "go" [] liftMachine).2
              (calls (Machine_Event liftOrder "go" [] liftMachine).2))
    as (Hc & Ht & Hr & _);
    [by vm_compute | by vm_compute | by vm_compute | by vm_compute | by vm_compute | | |].
  - intros c Hc _. vm_compute in Hc.
    repeat (apply elem_of_cons in Hc as [->|Hc]; [by vm_compute |]).
    by apply elem_of_nil in Hc.
  - intros c Hc _. vm_compute in Hc.
    repeat (apply elem_of_cons in Hc as [->|Hc]; [by vm_compute |]).
    by apply elem_of_nil in Hc.
  - split; [by rewrite Hr; vm_compute |]. split; [exact Hc |]. split; [exact Ht |].
    by vm_compute.
Defined.

(** ** Where a trigger can take the machine *)

Lemma rangeOrder_nil m : rangeOrder m [] -> transitions m = ∅.
Proof.
  unfold rangeOrder. intros H. apply Permutation_nil in H.
  apply fmap_nil_inv in H. by apply map_to_list_empty_iff.
Qed.

Lemma rangeOrder_head m k order : rangeOrder m (k :: order) -> is_Some (transitions m !! k).
Proof. unfold rangeOrder. intros H. apply elem_of_keys. rewrite <- H. by left. Qed.

Lemma Event_target order event args m r m' :
  rangeOrder m order ->
  Machine_Event order event args m = (r, m') ->
  (current m' = current m \/
   (transition m' = None /\
    (transitions m !! mk_eKey event (current m) = Some (current m') \/
     (transitions m = ∅ /\ current m' = "")))) /\
  (forall p, transition m' = Some p ->
     transition m = Some p \/
     transitions m !! mk_eKey event (current m) = Some (Pending_dst p) \/
     transitions m = ∅).
Proof.
  intros Hrange. rewrite Machine_Event_eq.
  destruct (transition m) as [p0|] eqn:Ht.
  { intros [= <- <-]. split; [by left |]. intros p Hp. left. congruence. }
  cbv zeta.
  assert (transitions m !! mk_eKey event (current m)
            = Some (default "" (transitions m !! mk_eKey event (current m))) \/
          (match transitions m !! mk_eKey event (current m) with
           | None => scan order event (current m)
           | Some _ => None
           end = None -> transitions m = ∅ /\
             default "" (transitions m !! mk_eKey event (current m)) = "")) as Hdst.
  { destruct (transitions m !! _) as [d|]; [by left |]. right. simpl.
    destruct order as [|k order]; [| simpl; by destruct (String.eqb _ _)].
    intros _. split; [by apply rangeOrder_nil | done]. }
  destruct (match transitions m !! _ with None => _ | Some _ => _ end) eqn:Hs.
  { intros [= <- <-]. split; [by left |]. intros p Hp. congruence. }
  set (dst := default "" _) in *.
  set (b := runChecked _ ifCanceled _ _).
  destruct (O_err b).
  { intros [= <- <-]. rewrite logged_current. split; [by left |].
    intros p. by rewrite logged_transition_None. }
  destruct (String.eqb _ _).
  { intros [= <- <-]. rewrite !logged_current. split; [by left |].
    intros p. by rewrite (logged_transition_None _ _ (logged_transition_None _ _ Ht)). }
  set (l := runChecked _ ifCanceledOrAsync _ _).
  set (ml := logged l _).
  assert (current ml = current m) as Hcur.
  { unfold ml. rewrite logged_current. simpl. by rewrite logged_current. }
  assert (forall p, transition ml = Some p -> Pending_dst p = dst) as Hpend.
  { intros p. unfold ml. erewrite logged_transition_Some; [| done]. by intros [= <-]. }
  destruct (O_err l) as [errl|].
  { intros Heq.
    assert (current m' = current m /\
            (forall p, transition m' = Some p -> Pending_dst p = dst)) as [Hc Hp]
      by (destruct errl; injection Heq as <- <-; done).
    split; [by left |]. intros p Hp'. apply Hp in Hp'. rewrite Hp'.
    destruct Hdst as [Hd|Hd]; [by right; left | right; right; by apply Hd]. }
  intros [= <- <-]. simpl. rewrite !logged_current. simpl.
  split; [| done]. right. split; [done |].
  destruct Hdst as [Hd|Hd]; [by left | right; by apply Hd].
Qed.

(** X8. Where a trigger can take the machine, when [order] is an order of
    the table's keys: the current state stays, or the trigger committed and
    the current state is the destination the table holds for the event and
    the state it was in; only on a machine with an empty table can a trigger
    commit otherwise, and then the current state is the empty string. *)
Theorem Event_moves order event args m r m' :
  rangeOrder m order ->
  Machine_Event order event args m = (r, m') ->
  current m' = current m \/
  (transition m' = None /\
   (transitions m !! mk_eKey event (current m) = Some (current m') \/
    (transitions m = ∅ /\ current m' = ""))).
Proof. intros Hrange He. by destruct (Event_target _ _ _ _ _ _ Hrange He). Qed.

(** X8, on the machine of the specification's scenario. *)
Lemma Event_moves_witness :
  let m := scanMachine [] in
  let m' := (Machine_Event scanOrder "scan" [] m).2 in
  rangeOrder m scanOrder /\ current m = "idle" /\ current m' = "scanning" /\
  transitions m !! mk_eKey "scan" "idle" = Some (current m').
Proof.
  cbv zeta.
  assert (rangeOrder (scanMachine []) scanOrder) as Hr.
  { unfold rangeOrder.
    assert ((map_to_list (transitions (scanMachine []))).*1
            = [mk_eKey "scan" "idle"; mk_eKey "finish" "scanning"]) as -> by (by vm_compute).
    apply perm_swap. }
  split; [exact Hr |]. split; [by vm_compute |]. split; [by vm_compute |].
  destruct (Event_moves scanOrder "scan" [] (scanMachine [])
              (Machine_Event scanOrder "scan" [] (scanMachine [])).1
              (Machine_Event scanOrder "scan" [] (scanMachine [])).2 Hr)
    as [H|(_ & [H|[H _]])]; [by vm_compute | by vm_compute in H | exact H | by vm_compute in H].
Defined.

Lemma rangeOrder_same m m' order :
  transitions m' = transitions m -> rangeOrder m order -> rangeOrder m' order.
Proof. unfold rangeOrder. by intros ->. Qed.

Lemma step_in_table c0 o m :
  transitions m <> ∅ ->
  isSetState o = false -> opInRange m o ->
  (current m = c0 \/ exists k, transitions m !! k = Some (current m)) ->
  (forall p, transition m = Some p -> exists k, transitions m !! k = Some (Pending_dst p)) ->
  (current (step o m).2 = c0 \/
   exists k, transitions m !! k = Some (current (step o m).2)) /\
  (forall p, transition (step o m).2 = Some p ->
     exists k, transitions m !! k = Some (Pending_dst p)).
Proof.
  intros Hne Ho Hrange Hcur Hpend.
  destruct o as [| | | | | |order event args|]; try done.
  - simpl in *. unfold bind, ret.
    destruct (Machine_Event order event args m) as [r m'] eqn:He. simpl.
    destruct (Event_target _ _ _ _ _ _ Hrange He) as [Hc Hp]. split.
    + destruct Hc as [->|(_ & [H|[H _]])]; [done | right; by eexists | done].
    + intros p Hp'. destruct (Hp p Hp') as [H|[H|H]]; [by apply Hpend | by eexists | done].
  - simpl. unfold bind, ret.
    destruct (transition m) as [p|] eqn:Ht.
    + rewrite (doTransition_pending m p Ht). simpl. rewrite !logged_current. simpl.
      split; [right; by apply Hpend | done].
    + rewrite (doTransition_not_pending m Ht). simpl. split; [done |].
      intros p. by rewrite Ht.
Qed.

Lemma run_in_table c0 ops : forall m,
  transitions m <> ∅ ->
  Forall (fun o => isSetState o = false /\ opInRange m o) ops ->
  (current m = c0 \/ exists k, transitions m !! k = Some (current m)) ->
  (forall p, transition m = Some p -> exists k, transitions m !! k = Some (Pending_dst p)) ->
  current (run ops m).2 = c0 \/
  exists k, transitions m !! k = Some (current (run ops m).2).
Proof.
  induction ops as [|o ops IH]; intros m Hne Hops Hcur Hpend; [done |].
  apply Forall_cons in Hops as [[Ho Hrange] Hops].
  rewrite run_cons. simpl.
  destruct (step_in_table c0 o m Hne Ho Hrange Hcur Hpend) as [Hc Hp].
  destruct (step_frame o m) as (HT & _).
  rewrite <- HT. apply IH; rewrite ?HT; try done.
  eapply Forall_impl; [exact Hops |]. intros o' [? Hr]. split; [done |].
  destruct o'; try done; simpl in *; by eapply rangeOrder_same.
Qed.

(** X9. On a machine with a table that is not empty and with nothing
    pending, along any sequence of operations that has no [SetState] and whose
    [range] orders are orders of the table's keys, the current state is the
    one at the start or a destination of the table. *)
Theorem run_stays_in_table ops m :
  transition m = None ->
  transitions m <> ∅ ->
  Forall (fun o => isSetState o = false /\ opInRange m o) ops ->
  current (run ops m).2 = current m \/
  exists k, transitions m !! k = Some (current (run ops m).2).
Proof.
  intros Ht Hne Hops. apply run_in_table; [done | done | by left |].
  intros p. by rewrite Ht.
Qed.

Lemma scanMachine_range cbs : rangeOrder (scanMachine cbs) scanOrder.
Proof.
  unfold rangeOrder.
  assert ((map_to_list (transitions (scanMachine cbs))).*1
          = [mk_eKey "scan" "idle"; mk_eKey "finish" "scanning"]) as -> by (by vm_compute).
  apply perm_swap.
Qed.

Lemma scanMachine_not_empty cbs : transitions (scanMachine cbs) <> ∅.
Proof.
  intros H.
  assert (transitions (scanMachine cbs) !! mk_eKey "scan" "idle" = Some "scanning") as Hl
    by (by vm_compute).
  rewrite H in Hl. by rewrite lookup_empty in Hl.
Qed.

(** X9, on the machine of the specification's scenario: [scan], a query,
    [finish], and an unknown event. *)
Lemma run_stays_in_table_witness :
  let m := scanMachine [] in
  let ops := [OpEvent scanOrder "scan" []; OpCan "finish";
              OpEvent scanOrder "finish" []; OpEvent scanOrder "bogus" []] in
  (run ops m).1 = [RError None; RBool true; RError None;
                   RError (Some (UnknownEventError "bogus"))] /\
  (current (run ops m).2 = current m \/
   exists k, transitions m !! k = Some (current (run ops m).2)).
Proof.
  cbv zeta. split; [by vm_compute |].
  apply (run_stays_in_table
           [OpEvent scanOrder "scan" []; OpCan "finish";
            OpEvent scanOrder "finish" []; OpEvent scanOrder "bogus" []] (scanMachine [])).
  - by vm_compute.
  - apply scanMachine_not_empty.
  - repeat (apply Forall_cons; split; [split; [done | try exact I; apply scanMachine_range] |]).
    by apply Forall_nil.
Defined.

(** ** A trigger without a table entry *)

(** X10. A trigger of an event that has no table entry from the current
    state, on a machine with nothing pending and a table that is not empty,
    with [order] an order of the table's keys. The machine is left as it is
    and the result is [InvalidEventError] or [UnknownEventError]. It is
    [InvalidEventError] exactly when the first key of [order] has the name of
    the event; so it is [UnknownEventError] whenever no entry has that name,
    and [InvalidEventError] whenever every entry has it, whatever the
    order. *)
Theorem Event_absent_key order event args m r m' :
  transition m = None ->
  rangeOrder m order ->
  transitions m <> ∅ ->
  transitions m !! mk_eKey event (current m) = None ->
  Machine_Event order event args m = (r, m') ->
  m' = m /\
  (r = Some (InvalidEventError event (current m)) \/ r = Some (UnknownEventError event)) /\
  (r = Some (InvalidEventError event (current m)) <->
   eKey_event <$> head order = Some event) /\
  ((forall src, transitions m !! mk_eKey event src = None) ->
   r = Some (UnknownEventError event)) /\
  ((forall k, is_Some (transitions m !! k) -> eKey_event k = event) ->
   r = Some (InvalidEventError event (current m))).
Proof.
  intros Ht Hrange Hne Hnone. rewrite Machine_Event_eq, Ht. cbv zeta. rewrite Hnone.
  destruct order as [|k order]; [by apply rangeOrder_nil in Hrange |].
  pose proof (rangeOrder_head _ _ _ Hrange) as Hk.
  simpl. destruct (String.eqb_spec (eKey_event k) event) as [He|He]; intros [= <- <-].
  - split; [done |]. split; [by left |]. split; [by rewrite He |]. split; [| done].
    intros Hall. destruct k as [ev src]. simpl in He. subst ev.
    rewrite Hall in Hk. by destruct Hk.
  - split; [done |]. split; [by right |]. split; [| split; [done |]].
    + split; [done | intros [= ?]; done].
    + intros Hall. by destruct He; apply Hall.
Qed.

(** X10, on the machine of the specification's scenario, in the state
    [idle]: [finish] has an entry, but not from [idle], and its key comes
    first in the order. *)
Lemma Event_absent_key_witness :
  let m := scanMachine [] in
  (Machine_Event scanOrder "finish" [] m).2 = m /\
  (Machine_Event scanOrder "finish" [] m).1 = Some (InvalidEventError "finish" "idle") /\
  (Machine_Event scanOrder "bogus" [] m).1 = Some (UnknownEventError "bogus").
Proof.
  cbv zeta.
  destruct (Event_absent_key scanOrder "finish" [] (scanMachine [])
              (Machine_Event scanOrder "finish" [] (scanMachine [])).1
              (Machine_Event scanOrder "finish" [] (scanMachine [])).2)
    as (Hm & _ & Hr & _);
    [by vm_compute | apply scanMachine_range | apply scanMachine_not_empty
     | by vm_compute | by vm_compute |].
  split; [exact Hm |]. split; [apply (proj2 Hr) |]; by vm_compute.
Defined.

(** ** A trigger on a machine without leave-state callbacks *)

(** X11. On a machine with nothing pending and with no leave-state callback
    registered for the current state or for the empty target, a trigger makes
    no leave-state call and leaves nothing pending, whatever flags the
    before-event callbacks set: the async flag is only looked at after a
    leave-state call. *)
Theorem Event_without_leave order event args m r m' new :
  transition m = None ->
  callbacks m !! mk_cKey (current m) callbackLeaveState = None ->
  callbacks m !! mk_cKey "" callbackLeaveState = None ->
  Machine_Event order event args m = (r, m') ->
  calls m' = (calls m ++ new)%list ->
  transition m' = None /\
  Forall (fun c => phase c <> callbackLeaveState) new /\
  (forall x, r = Some (AsyncError x) ->
     exists c, c ∈ new /\ Event_Err (Call_after c) = Some (AsyncError x)).
Proof.
  intros Ht Hl1 Hl2. rewrite Machine_Event_eq, Ht. cbv zeta.
  destruct (match transitions m !! _ with None => _ | Some _ => _ end) as [err|] eqn:Hs.
  { intros [= <- <-]. rewrite <- (app_nil_r (calls m)) at 1. intros <-%app_inv_head.
    split; [done |]. split; [constructor |]. intros x [= ->].
    destruct (transitions m !! _); [done |]. unfold scan in Hs.
    destruct order; [done |]. by destruct (String.eqb _ _). }
  set (e0 := newEvent m event args).
  set (b := runChecked _ ifCanceled _ _).
  assert (Forall (fun c => phase c <> callbackLeaveState) (O_calls b)) as Hpb.
  { apply Forall_forall. intros c Hc.
    erewrite runChecked_phase; [| apply beforeKeys_phase | exact Hc]. done. }
  destruct (O_err b) as [errb|] eqn:Hb.
  { intros [= <- <-]. rewrite logged_calls. intros <-%app_inv_head.
    split; [by apply logged_transition_None |]. split; [done |]. intros x [= ->].
    destruct (runChecked_err _ _ _ _ _ Hb) as (c & _ & _ & Hck).
    by apply ifCanceled_is_canceled in Hck as [? _]. }
  destruct (String.eqb _ _).
  { set (a := runChecked _ noCheck _ _).
    intros [= <- <-]. rewrite !logged_calls, <- app_assoc. intros <-%app_inv_head.
    split; [by do 2 apply logged_transition_None |]. split; [| done].
    apply Forall_app. split; [done |]. apply Forall_forall. intros c Hc.
    erewrite runChecked_phase; [| apply afterKeys_phase | exact Hc]. done. }
  set (l := runChecked _ ifCanceledOrAsync _ _).
  assert (l = mkOutcome [] (O_e b) None) as Hl.
  { unfold l, leaveKeys. rewrite !runChecked_cons, Hl1, Hl2. done. }
  rewrite Hl. simpl. unfold logged at 3. simpl.
  set (n := runChecked _ noCheck (enterKeys _) _).
  set (a := runChecked _ noCheck (afterKeys _) _).
  intros [= <- <-]. simpl. rewrite !logged_calls. simpl. rewrite logged_calls.
  rewrite <- !app_assoc. intros <-%app_inv_head.
  split; [done |]. split.
  { rewrite !Forall_app. split; [done |].
    split; apply Forall_forall; intros c Hc.
    - erewrite runChecked_phase; [| apply enterKeys_phase | exact Hc]. done.
    - erewrite runChecked_phase; [| apply afterKeys_phase | exact Hc]. done. }
  intros x Hx.
  assert (O_e a = default e0 (Call_after <$> last (O_calls b ++ O_calls n ++ O_calls a)))
    as Hea.
  { unfold a at 1. rewrite runChecked_last. fold a.
    unfold n at 1. rewrite runChecked_last. fold n.
    unfold b at 1. rewrite runChecked_last. fold b.
    by rewrite !last_app_default. }
  rewrite Hea in Hx.
  destruct (last (O_calls b ++ O_calls n ++ O_calls a)) as [c|] eqn:Hlast; [| done].
  exists c. split; [| done]. apply last_Some in Hlast as [l' ->].
  apply elem_of_app. right. by left.
Qed.

(** X11, on [asyncBeforeMachine]: the before-event callback asks for async,
    no leave-state callback is registered, and the trigger of [go] commits. *)
Lemma Event_without_leave_witness :
  let res := Machine_Event liftOrder "go" [] asyncBeforeMachine in
  Event_async <$> (Call_after <$> calls res.2) = [true] /\
  res.1 = None /\ current res.2 = "down" /\ transition res.2 = None.
Proof.
  cbv zeta.
  destruct (Event_without_leave liftOrder "go" [] asyncBeforeMachine
              (Machine_Event liftOrder "go" [] asyncBeforeMachine).1
              (Machine_Event liftOrder "go" [] asyncBeforeMachine).2
              (calls (Machine_Event liftOrder "go" [] asyncBeforeMachine).2))
    as (Ht & _); [by vm_compute ..|].
  split; [by vm_compute |]. split; [by vm_compute |]. split; [by vm_compute | exact Ht].
Defined.

(** ** [SetState] while a transition is deferred *)

(** X12. A [SetState] made while a closure is pending does not touch the
    closure: triggers are still turned away, and the resume returns nil and
    overwrites the state that was set with the destination of the deferred
    transition. *)
Theorem SetState_while_pending state m p :
  transition m = Some p ->
  let m1 := (Machine_SetState state m).2 in
  current m1 = state /\ transition m1 = Some p /\
  (forall order event args,
     Machine_Event order event args m1 = (Some (InTransitionError event), m1)) /\
  (Machine_doTransition m1).1.1 = None /\
  current (Machine_doTransition m1).2 = Pending_dst p /\
  transition (Machine_doTransition m1).2 = None.
Proof.
  intros Ht. cbv zeta. simpl. split; [done |]. split; [done |]. split.
  { intros. rewrite Machine_Event_eq. simpl. by rewrite Ht. }
  rewrite (doTransition_pending (set_current state m) p) by done.
  simpl. by rewrite !logged_current.
Qed.

(** X12, on [leavingMachine] after a deferred trigger of [finish]. *)
Lemma SetState_while_pending_witness :
  let m := (Machine_Event leavingOrder "finish" [] (leavingMachine Event_Async)).2 in
  let m1 := (Machine_SetState "elsewhere" m).2 in
  current m1 = "elsewhere" /\
  current (Machine_doTransition m1).2 = "idle" /\
  transition (Machine_doTransition m1).2 = None.
Proof.
  cbv zeta.
  destruct (SetState_while_pending "elsewhere"
              (Machine_Event leavingOrder "finish" [] (leavingMachine Event_Async)).2
              (mkPending "idle"
                 (Event_Async (newEvent (leavingMachine Event_Async) "finish" []))))
    as (Hc & _ & _ & _ & Hd & Ht); [by vm_compute |].
  split; [exact Hc |]. split; [exact Hd | exact Ht].
Defined.

(** ** A machine without callbacks *)

Lemma runChecked_empty check ks e : runChecked ∅ check ks e = mkOutcome [] e None.
Proof.
  induction ks as [|k ks IH]; [done |].
  by rewrite runChecked_cons, lookup_empty.
Qed.

(** X13. On a machine with an empty registry and nothing pending, a trigger
    of an event that has a table entry from the current state, which is what
    [Can] reports, makes no call: when the destination is another state it
    returns nil and only the current state changes, to the destination; when
    the destination is the current state it returns [NoTransitionError] with
    a nil error and changes nothing. *)
Theorem Event_plain order event args m dst :
  callbacks m = ∅ ->
  transition m = None ->
  transitions m !! mk_eKey event (current m) = Some dst ->
  (Machine_Can event m).1 = true /\
  Machine_Event order event args m =
    (if String.eqb (current m) dst then Some (NoTransitionError None) else None,
     set_current dst m).
Proof.
  intros Hcb Ht Hfound. split.
  { unfold Machine_Can, bind, get, ret. simpl. rewrite Hfound, Ht.
    rewrite bool_decide_true; [done | by eexists]. }
  rewrite Machine_Event_eq, Ht. cbv zeta. rewrite Hfound, Hcb. simpl.
  rewrite !runChecked_empty. simpl.
  destruct (String.eqb_spec (current m) dst) as [<-|Hne].
  - simpl. rewrite ?runChecked_empty. simpl. unfold logged. simpl. by destruct m.
  - rewrite ?runChecked_empty. simpl. unfold logged. simpl.
    destruct m as [c ts cbs t l]. simpl in *. by subst t.
Qed.

(** X13, on the machine of the specification's scenario, which has no
    callback. *)
Lemma Event_plain_witness :
  (Machine_Can "scan" (scanMachine [])).1 = true /\
  Machine_Event scanOrder "scan" [] (scanMachine [])
    = (None, set_current "scanning" (scanMachine [])).
Proof.
  destruct (Event_plain scanOrder "scan" [] (scanMachine []) "scanning")
    as [Hc He]; [by vm_compute ..|].
  split; [exact Hc | exact He].
Defined.

(** ** The errors only a callback can bring *)

(** X14. [Event] returns [InternalError] or [NotInTransitionError] only when
    that error is the one the last call of the trigger left in the error
    field of the context, and then nothing is pending: the engine itself
    never produces either of them in [Event]. *)
Theorem Event_never_internal order event args m r m' new :
  Machine_Event order event args m = (r, m') ->
  calls m' = (calls m ++ new)%list ->
  r = Some InternalError \/ r = Some NotInTransitionError ->
  transition m' = None /\
  exists c, last new = Some c /\ Event_Err (Call_after c) = r.
Proof.
  rewrite Machine_Event_eq.
  destruct (transition m) as [p|] eqn:Ht; [by intros [= <- <-] _ [|] |].
  cbv zeta.
  destruct (match transitions m !! _ with None => _ | Some _ => _ end) as [err|] eqn:Hs.
  { intros [= <- <-] _ Hr. destruct (transitions m !! _); [done |]. unfold scan in Hs.
    destruct order; [done |]. destruct (String.eqb _ _); injection Hs as <-; by destruct Hr. }
  set (e0 := newEvent m event args).
  set (b := runChecked _ ifCanceled _ _).
  destruct (O_err b) as [errb|] eqn:Hb.
  { intros [= <- <-] _ Hr.
    destruct (runChecked_err _ _ _ _ _ Hb) as (c & _ & _ & Hck).
    apply ifCanceled_is_canceled in Hck as [-> _]. by destruct Hr. }
  destruct (String.eqb _ _); [by intros [= <- <-] _ [|] |].
  set (l := runChecked _ ifCanceledOrAsync _ _).
  set (ml := logged l _).
  assert (calls ml = (calls m ++ (O_calls b ++ O_calls l))%list) as Hcalls.
  { unfold ml. rewrite logged_calls. simpl. by rewrite logged_calls, app_assoc. }
  destruct (O_err l) as [errl|] eqn:Hl.
  { destruct (runChecked_err _ _ _ _ _ Hl) as (c & _ & _ & Hck).
    apply ifCanceledOrAsync_cases in Hck as [[-> _]|[-> _]]; by intros [= <- <-] _ [|]. }
  set (n := runChecked _ noCheck (enterKeys _) _).
  set (a := runChecked _ noCheck (afterKeys _) _).
  intros [= <- <-]. simpl. rewrite !logged_calls. simpl. rewrite Hcalls.
  rewrite <- !app_assoc. intros <-%app_inv_head Hr. split; [done |].
  assert (O_e a = default e0 (Call_after <$>
            last (O_calls b ++ O_calls l ++ O_calls n ++ O_calls a))) as Hea.
  { unfold a at 1. rewrite runChecked_last. fold a.
    unfold n at 1. rewrite runChecked_last. fold n.
    unfold l at 1. rewrite runChecked_last. fold l.
    unfold b at 1. rewrite runChecked_last. fold b.
    by rewrite !last_app_default. }
  rewrite Hea in *.
  destruct (last (O_calls b ++ O_calls l ++ O_calls n ++ O_calls a)) as [c|].
  - by exists c.
  - simpl in Hr. by destruct Hr.
Qed.

(** X14, on the machine of the specification's scenario with a callback
    after [scan] that attaches an [InternalError]. *)
Lemma Event_never_internal_witness :
  let res := Machine_Event scanOrder "scan" []
               (scanMachine [("scan", attachError InternalError)]) in
  res.1 = Some InternalError /\ transition res.2 = None /\
  exists c, last (calls res.2) = Some c /\ Event_Err (Call_after c) = res.1.
Proof.
  cbv zeta. split; [by vm_compute |].
  apply (Event_never_internal scanOrder "scan" []
           (scanMachine [("scan", attachError InternalError)])
           (Machine_Event scanOrder "scan" []
              (scanMachine [("scan", attachError InternalError)])).1
           (Machine_Event scanOrder "scan" []
              (scanMachine [("scan", attachError InternalError)])).2
           (calls (Machine_Event scanOrder "scan" []
                     (scanMachine [("scan", attachError InternalError)])).2));
    [by vm_compute | by vm_compute | left; by vm_compute].
Defined.

(** ** A machine as [NewMachine] returns it *)

Lemma last_fmap_filter_is_Some {A B} (f : A -> B) (P : A -> Prop)
    `{!forall x, Decision (P x)} (l : list A) :
  is_Some (last (f <$> filter P l)) <-> exists x, x ∈ l /\ P x.
Proof.
  rewrite fmap_last, fmap_is_Some, last_is_Some. split.
  - intros Hne. destruct (filter P l) as [|x l'] eqn:E; [done |].
    assert (x ∈ filter P l) as Hx by (rewrite E; by left).
    apply list_elem_of_filter in Hx as [? ?]. by exists x.
  - intros (x & Hx & HP) E.
    assert (x ∈ filter P l) as Hx' by (by apply list_elem_of_filter).
    rewrite E in Hx'. by apply elem_of_nil in Hx'.
Qed.

Lemma AvailableTransitions_elem m order e :
  rangeOrder m order ->
  e ∈ (Machine_AvailableTransitions order m).1 <->
  is_Some (transitions m !! mk_eKey e (current m)).
Proof.
  intros Hperm. unfold Machine_AvailableTransitions, bind, get, ret; simpl.
  rewrite AvailableTransitions_foldl. simpl.
  rewrite list_elem_of_fmap. setoid_rewrite list_elem_of_filter.
  rewrite <- elem_of_keys. unfold rangeOrder in Hperm. rewrite <- Hperm. split.
  - intros ([e' s] & -> & Hs & Hin). simpl in *. by subst s.
  - intros Hin. by exists (mk_eKey e (current m)).
Qed.

(** X15. The machine [NewMachine] returns, for any initial state, known to
    the descriptors or not: [Current] gives the initial state and [Is] is true
    of it alone; nothing is pending, so a resume returns
    [NotInTransitionError] and changes nothing; no call has been made; [Can]
    is true of an event exactly when some descriptor has its name and lists
    the initial state as a source, and these are the events
    [AvailableTransitions] returns. *)
Theorem NewMachine_fresh initialState events cbs :
  let m := NewMachine initialState events cbs in
  (Machine_Current m).1 = initialState /\
  (forall state, (Machine_Is state m).1 = true <-> state = initialState) /\
  calls m = [] /\
  Machine_doTransition m = ((Some NotInTransitionError, None), m) /\
  (forall event, (Machine_Can event m).1 = true <->
                 exists e, e ∈ events /\ describes event initialState e) /\
  (forall order event, rangeOrder m order ->
     (event ∈ (Machine_AvailableTransitions order m).1 <->
      exists e, e ∈ events /\ describes event initialState e)).
Proof.
  cbv zeta. split; [done |]. split.
  { intros state. unfold Machine_Is, Machine_Current, bind, get, ret. simpl.
    apply String.eqb_eq. }
  split; [done |]. split; [by apply doTransition_not_pending |]. split.
  - intros event. unfold Machine_Can, bind, get, ret.
    cbn [fst snd current transition NewMachine isNil].
    rewrite andb_true_r, bool_decide_eq_true.
    change (transitions (mkMachine initialState (Tables_transitions (buildTables events))
              (foldl (register (buildTables events)) ∅ cbs) None []))
      with (transitions (NewMachine initialState events cbs)).
    rewrite transitions_lookup. apply last_fmap_filter_is_Some.
  - intros order event Hr. rewrite (AvailableTransitions_elem _ _ _ Hr).
    change (current (NewMachine initialState events cbs)) with initialState.
    rewrite transitions_lookup. apply last_fmap_filter_is_Some.
Qed.

(** ** The methods of the context *)

Lemma methodCalls_cons c cs e : methodCalls (c :: cs) e = methodCalls cs (applyMethod e c).
Proof. done. Qed.

Lemma methodCalls_fields cs : forall e,
  Event_canceled (methodCalls cs e) = Event_canceled e || hasCancel cs /\
  Event_async (methodCalls cs e) = Event_async e || hasAsync cs /\
  Event_Err (methodCalls cs e) =
    match lastCancelError cs with
    | Some err => Some err
    | None => Event_Err e
    end /\
  Event_Event (methodCalls cs e) = Event_Event e /\
  Event_Src (methodCalls cs e) = Event_Src e /\
  Event_Dst (methodCalls cs e) = Event_Dst e /\
  Event_Args (methodCalls cs e) = Event_Args e.
Proof.
  induction cs as [|c cs IH]; intros e.
  { simpl. by rewrite !orb_false_r. }
  rewrite methodCalls_cons.
  destruct (IH (applyMethod e c)) as (H1 & H2 & H3 & H4 & H5 & H6 & H7).
  rewrite H1, H2, H3, H4, H5, H6, H7. clear.
  unfold lastCancelError.
  destruct c as [[|err errs]|]; simpl.
  - by rewrite orb_true_r.
  - rewrite orb_true_r. repeat split. unfold omap.
    destruct (list_omap _ _ _ cs) as [|x l] eqn:E; [done |].
    destruct (last (x :: l)) eqn:E'; [| by apply last_None in E'].
    by rewrite last_cons_cons, E'.
  - rewrite orb_true_r. by destruct (Event_canceled e).
Qed.

(** X16. What a callback can do to the context with the two methods alone,
    in any number and order of calls: the cancel flag is set if it was or if
    there is a [Cancel]; the async flag is set if it was or if there is an
    [Async]; neither flag is ever cleared; the error field holds the argument
    of the last [Cancel] that was given one, or what it held when there is
    none; the event, source, destination and arguments are untouched. *)
Theorem methodCalls_effect cs : forall e,
  Event_canceled (methodCalls cs e) = Event_canceled e || hasCancel cs /\
  Event_async (methodCalls cs e) = Event_async e || hasAsync cs /\
  Event_Err (methodCalls cs e) =
    match lastCancelError cs with
    | Some err => Some err
    | None => Event_Err e
    end /\
  Event_Event (methodCalls cs e) = Event_Event e /\
  Event_Src (methodCalls cs e) = Event_Src e /\
  Event_Dst (methodCalls cs e) = Event_Dst e /\
  Event_Args (methodCalls cs e) = Event_Args e.
Proof. apply methodCalls_fields. Qed.

(** ** A leave-state callback made of method calls *)

Lemma runChecked_first cbs check k ks e fn :
  cbs !! k = Some fn -> mkCall k (fn e) ∈ O_calls (runChecked cbs check (k :: ks) e).
Proof.
  intros Hk. rewrite runChecked_cons, Hk. destruct (check (fn e)); simpl; by left.
Qed.

Lemma runChecked_none2 cbs check k1 k2 e :
  cbs !! k1 = None -> cbs !! k2 = None ->
  runChecked cbs check [k1; k2] e = mkOutcome [] e None.
Proof. intros H1 H2. by rewrite !runChecked_cons, H1, H2. Qed.

Lemma logged_nil e err m : logged (mkOutcome [] e err) m = m.
Proof. done. Qed.

(** X17. A trigger of an event with a table entry to another state, on a
    machine with nothing pending and no before-event callback in its way,
    where the leave-state callback for the current state makes the method
    calls [cs]. If one of them is [Cancel], the trigger returns
    [CanceledError] around the argument of the last [Cancel] that was given
    one (nil when none was), and changes neither the state nor the slot,
    whether or not [Async] was called too. If none is [Cancel] and one is
    [Async], it returns [AsyncError] around nil and leaves the closure for
    the destination pending. *)
Theorem Event_leave_methods order event args m dst cs r m' :
  transition m = None ->
  transitions m !! mk_eKey event (current m) = Some dst ->
  current m <> dst ->
  callbacks m !! mk_cKey (current m) callbackBeforeEvent = None ->
  callbacks m !! mk_cKey "" callbackBeforeEvent = None ->
  callbacks m !! mk_cKey (current m) callbackLeaveState = Some (methodCalls cs) ->
  Machine_Event order event args m = (r, m') ->
  (hasCancel cs = true ->
   r = Some (CanceledError (lastCancelError cs)) /\
   current m' = current m /\ transition m' = None) /\
  (hasCancel cs = false -> hasAsync cs = true ->
   r = Some (AsyncError None) /\ current m' = current m /\
   transition m' = Some (mkPending dst (methodCalls cs (newEvent m event args)))).
Proof.
  intros Ht Hfound Hne Hb1 Hb2 Hl He.
  set (e0 := newEvent m event args).
  set (c := mkCall (mk_cKey (current m) callbackLeaveState) (methodCalls cs e0)).
  destruct (methodCalls_fields cs e0) as (Hcan & Has & Herr & _).
  simpl in Hcan, Has, Herr.
  assert (Event_Err (methodCalls cs e0) = lastCancelError cs) as Herr'
    by (rewrite Herr; by destruct (lastCancelError cs)).
  assert (exists new, calls m' = (calls m ++ new)%list /\ c ∈ new) as (new & Hnew & Hc).
  { revert He. rewrite Machine_Event_eq, Ht. cbv zeta. rewrite Hfound. simpl.
    fold e0. unfold beforeKeys. rewrite (runChecked_none2 _ _ _ _ _ Hb1 Hb2).
    rewrite logged_nil. simpl.
    destruct (String.eqb_spec (current m) dst) as [|_]; [done |].
    set (l := runChecked _ ifCanceledOrAsync _ _).
    assert (c ∈ O_calls l) as Hc by (by apply runChecked_first).
    set (ml := logged l _).
    assert (calls ml = (calls m ++ O_calls l)%list) as Hcalls
      by (unfold ml; by rewrite logged_calls).
    destruct (O_err l) as [errl|].
    - intros Heq.
      assert (calls m' = calls ml) as -> by (destruct errl; injection Heq as <- <-; done).
      by exists (O_calls l).
    - set (n := runChecked _ noCheck (enterKeys _) _).
      set (a := runChecked _ noCheck (afterKeys _) _).
      intros [= _ <-]. simpl. rewrite !logged_calls. simpl. rewrite Hcalls.
      exists (O_calls l ++ O_calls n ++ O_calls a)%list. rewrite <- !app_assoc.
      split; [done |]. apply elem_of_app. by left. }
  destruct (Event_flags_new _ _ _ _ _ _ _ _ Ht He Hnew Hc) as [H1 H2].
  assert (destination m event = dst) as Hd by (unfold destination; by rewrite Hfound).
  split.
  - intros Hcs. rewrite Hcs in Hcan. rewrite <- Herr'. apply H1; [by right | done].
  - intros Hcs Has'. rewrite Hcs in Hcan. rewrite Has' in Has.
    destruct H2 as (-> & ? & ->); [done ..|].
    simpl. rewrite Herr', Hd. unfold lastCancelError.
    assert (omap (fun c => match c with CallCancel (err :: _) => Some err | _ => None end) cs
            = []) as ->; [| done].
    clear -Hcs. induction cs as [|[|] cs IH]; simpl in *; [done | done | by apply IH].
Qed.

(** X17, on [leavingMachine]: the callback calls [Async], then [Cancel]
    with an error, then [Cancel] without one. *)
Lemma Event_leave_methods_witness :
  let cs := [CallAsync; CallCancel [UserError "busy"]; CallCancel []] in
  let res := Machine_Event leavingOrder "finish" [] (leavingMachine (methodCalls cs)) in
  res.1 = Some (CanceledError (Some (UserError "busy"))) /\
  current res.2 = "scanning" /\ transition res.2 = None.
Proof.
  cbv zeta.
  pose (cs := [CallAsync; CallCancel [UserError "busy"]; CallCancel []]).
  destruct (Event_leave_methods leavingOrder "finish" [] (leavingMachine (methodCalls cs))
              "idle" cs
              (Machine_Event leavingOrder "finish" [] (leavingMachine (methodCalls cs))).1
              (Machine_Event leavingOrder "finish" [] (leavingMachine (methodCalls cs))).2)
    as [H _]; [by vm_compute ..|].
  apply H. by vm_compute.
Defined.

(** X15, on the machine of the specification's scenario. *)
Lemma NewMachine_fresh_witness :
  let m := scanMachine [] in
  rangeOrder m scanOrder /\
  (forall event, event ∈ (Machine_AvailableTransitions scanOrder m).1 <->
     exists e, e ∈ [mkEventDesc "scan" ["idle"] "scanning";
                    mkEventDesc "finish" ["scanning"] "idle"] /\
               describes event "idle" e).
Proof.
  cbv zeta. split; [apply scanMachine_range |].
  destruct (NewMachine_fresh "idle"
              [mkEventDesc "scan" ["idle"] "scanning";
               mkEventDesc "finish" ["scanning"] "idle"] [])
    as (_ & _ & _ & _ & _ & H).
  intros event. apply H. apply scanMachine_range.
Defined.

(** ** The order in which [NewMachine] visits the callbacks *)

Lemma filter_at_most_one {A B} `{EqDecision B} (f : A -> B) (k : B) (l : list A) :
  NoDup (f <$> l) -> length (filter (fun x => f x = k) l) <= 1.
Proof.
  induction l as [|x l IH]; simpl; [lia |].
  intros [Hx Hl]%NoDup_cons. specialize (IH Hl).
  destruct (decide (f x = k)) as [Hk|Hk].
  - rewrite filter_cons_True by done. simpl.
    destruct (filter (fun x => f x = k) l) as [|y l'] eqn:E; [simpl; lia |].
    assert (y ∈ filter (fun x => f x = k) l) as Hy by (rewrite E; by left).
    apply list_elem_of_filter in Hy as [Hy Hin]. destruct Hx.
    rewrite Hk, <- Hy. by apply list_elem_of_fmap_2.
  - by rewrite filter_cons_False.
Qed.

Lemma Permutation_short {A} (l1 l2 : list A) : l1 ≡ₚ l2 -> length l1 <= 1 -> l1 = l2.
Proof.
  intros Hp Hlen. destruct l1 as [|x [|y l1]]; simpl in Hlen; [| | lia].
  - symmetry. by apply Permutation_nil.
  - by apply Permutation_singleton_l.
Qed.

(** X18. [NewMachine] visits the map of callbacks in an order the runtime
    chooses. When no two names resolve to the same key, the machine it builds
    is the same for every order. *)
Theorem NewMachine_order_free initialState events cbs cbs' :
  cbs ≡ₚ cbs' ->
  NoDup ((fun nc => resolve (buildTables events) nc.1) <$> cbs) ->
  NewMachine initialState events cbs = NewMachine initialState events cbs'.
Proof.
  intros Hperm Hnd.
  assert (callbacks (NewMachine initialState events cbs)
          = callbacks (NewMachine initialState events cbs')) as Hcb.
  { apply map_eq. intros k. rewrite !registry_lookup.
    destruct (decide _); [done |]. do 2 f_equal.
    apply Permutation_short; [by rewrite Hperm |].
    by apply (filter_at_most_one (fun nc => resolve (buildTables events) nc.1)). }
  unfold NewMachine in *. simpl in Hcb. by rewrite Hcb.
Qed.

(** X18, on the machine of the specification's scenario with the two names
    [scan] and [finish], in both orders. *)
Lemma NewMachine_order_free_witness :
  scanMachine [("scan", attachError (UserError "a")); ("finish", Event_Async)] =
  scanMachine [("finish", Event_Async); ("scan", attachError (UserError "a"))].
Proof.
  apply NewMachine_order_free; [apply perm_swap |].
  apply (bool_decide_unpack _). by vm_compute.
Defined.

(** ** One context for all the calls of a trigger *)

Lemma chained_app cbs e l1 l2 :
  chained cbs e l1 ->
  chained cbs (default e (Call_after <$> last l1)) l2 ->
  chained cbs e (l1 ++ l2).
Proof.
  revert e. induction l1 as [|c l1 IH]; intros e; simpl; [done |].
  intros [Hc Hl1] Hl2. split; [done |]. apply IH; [done |].
  destruct l1 as [|c' l1]; [exact Hl2 |]. rewrite last_cons_cons in Hl2.
  destruct (last (c' :: l1)) eqn:E; [exact Hl2 | by apply last_None in E].
Qed.

Lemma runChecked_chained cbs check ks : forall e,
  chained cbs e (O_calls (runChecked cbs check ks e)).
Proof.
  induction ks as [|k ks IH]; intros e; [done |].
  rewrite runChecked_cons. destruct (cbs !! k) as [fn|] eqn:Hk; [| apply IH].
  destruct (check (fn e)); simpl.
  - split; [| done]. by exists fn.
  - split; [by exists fn | apply IH].
Qed.

(** X19. The calls of a trigger hand one context along. On a machine with
    nothing pending, the first call of a trigger is a registered callback
    applied to the fresh context, which has the event, the current state as
    source, the destination of the table, a nil error, the arguments given
    and both flags clear; each later call, in whatever phase, is a registered
    callback applied to the context as the call before it left it. The
    calls of a resume continue from the context the pending closure holds in
    the same way. *)
Theorem calls_chained m :
  (forall order event args r m' new,
     transition m = None ->
     Machine_Event order event args m = (r, m') ->
     calls m' = (calls m ++ new)%list ->
     chained (callbacks m) (newEvent m event args) new) /\
  (forall p new,
     transition m = Some p ->
     calls (Machine_doTransition m).2 = (calls m ++ new)%list ->
     chained (callbacks m) (Pending_e p) new).
Proof.
  split.
  - intros order event args r m' new Ht. rewrite Machine_Event_eq, Ht. cbv zeta.
    destruct (match transitions m !! _ with None => _ | Some _ => _ end).
    { intros [= <- <-]. rewrite <- (app_nil_r (calls m)) at 1.
      by intros <-%app_inv_head. }
    set (e0 := newEvent m event args).
    set (b := runChecked _ ifCanceled _ _).
    pose proof (runChecked_chained (callbacks m) ifCanceled (beforeKeys (current m)) e0)
      as Cb. fold b in Cb.
    pose proof (runChecked_last (callbacks m) ifCanceled (beforeKeys (current m)) e0)
      as Eb. fold b in Eb.
    destruct (O_err b).
    { intros [= <- <-]. rewrite logged_calls. by intros <-%app_inv_head. }
    destruct (String.eqb _ _).
    { set (a := runChecked _ noCheck _ _).
      intros [= <- <-]. rewrite !logged_calls, <- app_assoc. intros <-%app_inv_head.
      apply chained_app; [done |]. rewrite <- Eb. apply runChecked_chained. }
    set (l := runChecked _ ifCanceledOrAsync _ _).
    pose proof (runChecked_last (callbacks m) ifCanceledOrAsync (leaveKeys (current m))
                  (O_e b)) as El. fold l in El.
    set (ml := logged l _).
    assert (calls ml = (calls m ++ (O_calls b ++ O_calls l))%list) as Hcalls.
    { unfold ml. rewrite logged_calls. simpl. by rewrite logged_calls, app_assoc. }
    assert (chained (callbacks m) e0 (O_calls b ++ O_calls l)) as Cbl.
    { apply chained_app; [done |]. rewrite <- Eb. apply runChecked_chained. }
    destruct (O_err l) as [errl|].
    { intros Heq.
      assert (calls m' = calls ml) as -> by (destruct errl; injection Heq as <- <-; done).
      rewrite Hcalls. by intros <-%app_inv_head. }
    set (n := runChecked _ noCheck (enterKeys _) _).
    set (a := runChecked _ noCheck (afterKeys _) _).
    intros [= <- <-]. simpl. rewrite !logged_calls. simpl. rewrite Hcalls.
    rewrite <- !app_assoc. intros <-%app_inv_head.
    rewrite app_assoc. apply chained_app; [done |].
    rewrite <- last_app_default, <- Eb, <- El.
    apply chained_app; [apply runChecked_chained |].
    unfold n at 1. rewrite <- runChecked_last. apply runChecked_chained.
  - intros p new Ht. rewrite (doTransition_pending m p Ht). simpl.
    rewrite !logged_calls. simpl. rewrite <- app_assoc. intros <-%app_inv_head.
    apply chained_app; [apply runChecked_chained |].
    rewrite <- runChecked_last. apply runChecked_chained.
Qed.

(** X19, on [liftMachine]: the four calls of the trigger of [go]. *)
Lemma calls_chained_witness :
  let res := Machine_Event liftOrder "go" [] liftMachine in
  chained (callbacks liftMachine) (newEvent liftMachine "go" []) (calls res.2) /\
  length (calls res.2) = 4.
Proof.
  cbv zeta. split; [| by vm_compute].
  apply (proj1 (calls_chained liftMachine) liftOrder "go" []
           (Machine_Event liftOrder "go" [] liftMachine).1
           (Machine_Event liftOrder "go" [] liftMachine).2);
    by vm_compute.
Defined.
